(** * clawdbot: the daily WOD -> Notion database sync

    A shallow embedding of [scripts/daily_wod_to_notion_db.mjs] (parser,
    noise filter, rich-text chunking, query-then-create sync loop) and of
    the block lister of [scripts/notion_inspect_page.mjs], followed by the
    properties of the specification stated over that embedding.

    JavaScript strings are sequences of UTF-16 code units; a code unit is
    modelled as an [N] and a string as a list of them, so [length], [slice]
    and indexing count code units exactly as the scripts do. *)

From Stdlib Require Import List NArith Arith Bool Ascii Lia.
From Stdlib Require String ListSet.
Import ListNotations String.StringSyntax.

Set Implicit Arguments.

(* ================================================================== *)
(** * JavaScript strings                                               *)
(* ================================================================== *)

Definition char := N.
Definition str := list char.

(** A string literal of the source (ASCII only) as code units. *)
Definition js (s : String.string) : str :=
  map N_of_ascii (String.list_ascii_of_string s).
Arguments js s%_string_scope.

Definition LF : char := 10%N.
Definition CR : char := 13%N.

Definition char_eqb (a b : char) : bool := N.eqb a b.

Definition str_eq_dec : forall a b : str, {a = b} + {a <> b} :=
  list_eq_dec N.eq_dec.

Definition str_eqb (a b : str) : bool :=
  if str_eq_dec a b then true else false.

(** ECMAScript WhiteSpace and LineTerminator code units.  [String.trim] and
    the regular expression class [\s] use the same set. *)
Definition is_space (c : char) : bool :=
  ((9 <=? c) && (c <=? 13) || (c =? 32) || (c =? 160) || (c =? 5760)
   || (8192 <=? c) && (c <=? 8202) || (c =? 8232) || (c =? 8233)
   || (c =? 8239) || (c =? 8287) || (c =? 12288) || (c =? 65279))%N.

(** The class [\d]. *)
Definition is_digit (c : char) : bool := ((48 <=? c) && (c <=? 57))%N.

(** Canonicalize of a non-unicode, ignore-case regular expression.  The
    patterns of the scripts hold ASCII characters only, and a code unit
    above 127 never canonicalizes to an ASCII one, so only the ASCII
    letters need folding. *)
Definition canonicalize (c : char) : char :=
  if ((97 <=? c) && (c <=? 122))%N then (c - 32)%N else c.

Fixpoint drop_while (p : char -> bool) (s : str) : str :=
  match s with
  | [] => []
  | c :: s' => if p c then drop_while p s' else s
  end.

Definition trimStart (s : str) : str := drop_while is_space s.
Definition trimEnd (s : str) : str := rev (drop_while is_space (rev s)).

(** [s.trim()] *)
Definition trim (s : str) : str := trimEnd (trimStart s).

(** [a.join(sep)] on an array of strings. *)
Fixpoint join (sep : str) (parts : list str) : str :=
  match parts with
  | [] => []
  | [p] => p
  | p :: rest => p ++ sep ++ join sep rest
  end.

(** [s.slice(a, b)] for [0 <= a <= b]. *)
Definition slice (s : str) (a b : nat) : str := firstn (b - a) (skipn a s).

(** [s.split(/\r?\n/)]: a separator is a line feed, together with the
    carriage return just before it when there is one. *)
Fixpoint split_lines (s : str) : list str :=
  match s with
  | [] => [[]]
  | c :: s' =>
      if char_eqb c LF then [] :: split_lines s'
      else
        match s' with
        | d :: s'' =>
            if char_eqb c CR && char_eqb d LF then [] :: split_lines s''
            else match split_lines s' with
                 | l :: ls => (c :: l) :: ls
                 | [] => [[c]]
                 end
        | [] => [[c]]
        end
  end.

(* ================================================================== *)
(** * Regular expressions                                              *)
(* ================================================================== *)

(** The regular fragment the scripts use, matched with derivatives. *)
Inductive regex : Type :=
| Fail : regex
| Eps : regex
| Cls : (char -> bool) -> regex
| Cat : regex -> regex -> regex
| Alt : regex -> regex -> regex
| Star : regex -> regex.

Fixpoint nullable (r : regex) : bool :=
  match r with
  | Fail => false
  | Eps => true
  | Cls _ => false
  | Cat a b => nullable a && nullable b
  | Alt a b => nullable a || nullable b
  | Star _ => true
  end.

Definition cat (a b : regex) : regex :=
  match a, b with
  | Fail, _ => Fail
  | _, Fail => Fail
  | Eps, _ => b
  | _, _ => Cat a b
  end.

Definition alt (a b : regex) : regex :=
  match a, b with
  | Fail, _ => b
  | _, Fail => a
  | _, _ => Alt a b
  end.

Fixpoint deriv (c : char) (r : regex) : regex :=
  match r with
  | Fail => Fail
  | Eps => Fail
  | Cls p => if p c then Eps else Fail
  | Cat a b =>
      if nullable a then alt (cat (deriv c a) b) (deriv c b)
      else cat (deriv c a) b
  | Alt a b => alt (deriv c a) (deriv c b)
  | Star a => cat (deriv c a) (Star a)
  end.

(** Some prefix of [s] matches [r]. *)
Fixpoint matches_prefix (r : regex) (s : str) : bool :=
  nullable r ||
  match s with
  | [] => false
  | c :: s' => matches_prefix (deriv c r) s'
  end.

(** The whole of [s] matches [r]: a pattern written [^...$]. *)
Fixpoint matches_whole (r : regex) (s : str) : bool :=
  match s with
  | [] => nullable r
  | c :: s' => matches_whole (deriv c r) s'
  end.

(** [/r/.test(s)] for a pattern without anchors: a match at some index. *)
Fixpoint test (r : regex) (s : str) : bool :=
  matches_prefix r s ||
  match s with
  | [] => false
  | _ :: s' => test r s'
  end.

Definition plus (r : regex) : regex := Cat r (Star r).

Fixpoint times (n : nat) (r : regex) : regex :=
  match n with
  | O => Eps
  | S n' => Cat r (times n' r)
  end.

Fixpoint lit (s : str) : regex :=
  match s with
  | [] => Eps
  | c :: s' => Cat (Cls (char_eqb c)) (lit s')
  end.

(** A literal under the [i] flag. *)
Fixpoint lit_ci (s : str) : regex :=
  match s with
  | [] => Eps
  | c :: s' =>
      Cat (Cls (fun x => char_eqb (canonicalize x) (canonicalize c)))
          (lit_ci s')
  end.

Definition ws : regex := Cls is_space.
Definition digit : regex := Cls is_digit.

(** [/NO RESERVATION, NO CLASS\./i] *)
Definition re_no_reservation : regex :=
  lit_ci (js "NO RESERVATION, NO CLASS.").

(** [/MORE THAN\s+5\s+MIN/i] *)
Definition re_more_than_5_min : regex :=
  Cat (lit_ci (js "MORE THAN"))
      (Cat (plus ws) (Cat (lit_ci (js "5")) (Cat (plus ws) (lit_ci (js "MIN"))))).

(** The body of [\d{2}\/\d{2}\/\d{4}]. *)
Definition re_ddmmyyyy : regex :=
  Cat (times 2 digit)
      (Cat (lit (js "/")) (Cat (times 2 digit) (Cat (lit (js "/")) (times 4 digit)))).

(** [/^####\s+(\d{2}\/\d{2}\/\d{4})\s*$/] *)
Definition re_date_header : regex :=
  Cat (lit (js "####")) (Cat (plus ws) (Cat re_ddmmyyyy (Star ws))).

(* ================================================================== *)
(** * NoiseFilter: stripAnnoyingLines                                  *)
(* ================================================================== *)

(** Number of line feeds at the front of [s]. *)
Fixpoint leading_lf (s : str) : nat :=
  match s with
  | c :: s' => if char_eqb c LF then S (leading_lf s') else 0
  | [] => 0
  end.

(** [s.replace(/\n{3,}/g, '\n\n')]: scanning from the left, a greedy match
    of three or more line feeds is replaced by two and the scan resumes
    after it; where there is no match the character is copied. *)
Fixpoint replace_nl3 (fuel : nat) (s : str) : str :=
  match fuel with
  | O => s
  | S fuel' =>
      match s with
      | [] => []
      | c :: s' =>
          let k := leading_lf s in
          if 3 <=? k then LF :: LF :: replace_nl3 fuel' (skipn k s)
          else c :: replace_nl3 fuel' s'
      end
  end.

Definition collapse_newlines (s : str) : str := replace_nl3 (length s) s.

Definition stripAnnoyingLines (text : str) : str :=
  trim
    (collapse_newlines
       (join [LF]
          (filter (fun line => negb (test re_more_than_5_min line))
             (filter (fun line => negb (test re_no_reservation line))
                (split_lines text))))).


(* ================================================================== *)
(** * Exceptions and [undefined]                                       *)
(* ================================================================== *)

(** The errors a run can raise: the [throw new Error(...)] statements of
    the scripts, the [TypeError] of a method call on [undefined], and the
    exhaustion of the fuel that bounds the loops of this model. *)
Inductive error : Type :=
| MissingToken : error
| MissingPageId : error
| MissingMarkdown : error
| NoEntriesFound : str -> error
| NoChildDatabase : error
| NotionApiError : nat -> error
| TypeError : error
| OutOfFuel : error.

Inductive result (A : Type) : Type :=
| Ok : A -> result A
| Throw : error -> result A.
Arguments Throw {A} e.

Definition rbind {A B} (m : result A) (k : A -> result B) : result B :=
  match m with
  | Ok a => k a
  | Throw e => Throw e
  end.

Notation "'try!' x <- m ; k" := (rbind m (fun x => k))
  (at level 10, x pattern, m at level 100, k at level 200).

(** The message of each error; that of a failed request is cut to its
    fixed part. *)
Definition error_message (e : error) : str :=
  match e with
  | MissingToken => js "Missing NOTION_TOKEN in environment/.env"
  | MissingPageId => js "Missing NOTION_PAGE_ID in environment/.env"
  | MissingMarkdown => js "Missing WOD_MARKDOWN (expected vfuae.com/wod/ markdown)."
  | NoEntriesFound d => js "No entries found for " ++ d ++ js "."
  | NoChildDatabase => js "No child_database found under target page."
  | NotionApiError _ => js "Notion API error"
  | TypeError => js "TypeError"
  | OutOfFuel => js "out of fuel"
  end.

(** [a ?? b]; [None] is [undefined]. *)
Definition nullish {A} (a b : option A) : option A :=
  match a with
  | Some x => Some x
  | None => b
  end.

(** [v.trim()]: a method call on [undefined] raises. *)
Definition call_trim (v : option str) : result str :=
  match v with
  | Some s => Ok (trim s)
  | None => Throw TypeError
  end.

(** [v?.trim()] *)
Definition opt_trim (v : option str) : option str := option_map trim v.

(** [v?.match(/^####\s+(\d{2}\/\d{2}\/\d{4})\s*$/)], reduced to its first
    capture group: the ten characters after the hashes and the white space
    that follows them. *)
Definition match_date_header (v : option str) : option str :=
  match v with
  | Some l =>
      if matches_whole re_date_header l
      then Some (firstn 10 (drop_while is_space (skipn 4 l)))
      else None
  | None => None
  end.

(** [/^####\s+\d{2}\/\d{2}\/\d{4}\s*$/.test(v)]; [test] converts its
    argument to a string. *)
Definition test_date_header (v : option str) : bool :=
  matches_whole re_date_header
    (match v with Some l => l | None => js "undefined" end).

(** [s.replace(/^####\s+/, '')] *)
Definition strip_hashes (s : str) : str :=
  if matches_prefix (Cat (lit (js "####")) (plus ws)) s
  then drop_while is_space (skipn 4 s)
  else s.

(* ================================================================== *)
(** * BlockParser: parseWodPage                                        *)
(* ================================================================== *)

Record entry : Type := mkEntry
  { date : str; loc : str; program : str; body : str }.

(** The inner [while] of [parseWodPage]: body lines are pushed until a
    date header or the end of the input.  [nth i lines []] is [lines[i]]
    as [join] renders it. *)
Fixpoint body_loop (fuel : nat) (lines : list str) (i : nat)
    (acc : list str) : result (nat * list str) :=
  match fuel with
  | O => Throw OutOfFuel
  | S fuel' =>
      if i <? length lines then
        let maybeNextDate := opt_trim (nth_error lines i) in
        if test_date_header maybeNextDate then Ok (i, acc)
        else body_loop fuel' lines (S i) (acc ++ [nth i lines []])
      else Ok (i, acc)
  end.

(** The outer [while] of [parseWodPage]. *)
Fixpoint parse_loop (fuel : nat) (lines : list str) (target : str)
    (i : nat) (entries : list entry) : result (list entry) :=
  match fuel with
  | O => Throw OutOfFuel
  | S fuel' =>
      if i <? length lines then
        let dateLine := opt_trim (nth_error lines i) in
        match match_date_header dateLine with
        | None => parse_loop fuel' lines target (S i) entries
        | Some d =>
            try! locLine <-
              call_trim (nullish (nth_error lines (i + 2))
                           (nullish (nth_error lines (i + 1)) (Some [])));
            try! progLine <-
              call_trim (nullish (nth_error lines (i + 3))
                           (nullish (nth_error lines (i + 2)) (Some [])));
            let l := trim (strip_hashes locLine) in
            let p := trim (strip_hashes progLine) in
            try! (i', b) <- body_loop (S (length lines)) lines (i + 4) [];
            let entries' :=
              if str_eqb d target
              then entries ++ [mkEntry d l p (stripAnnoyingLines (join [LF] b))]
              else entries in
            parse_loop fuel' lines target i' entries'
        end
      else Ok entries
  end.

Definition parse_lines (lines : list str) (target : str) : result (list entry) :=
  parse_loop (S (length lines)) lines target 0 [].

Definition parseWodPage (markdown targetDDMMYYYY : str) : result (list entry) :=
  parse_lines (split_lines markdown) targetDDMMYYYY.


(* ================================================================== *)
(** * Segment chunking: notionRichText                                 *)
(* ================================================================== *)

(** [{ type: 'text', text: { content: c } }] *)
Record rich_text : Type := mkText { content : str }.

Definition max : nat := 1800.

(** [for (let i = 0; i < s.length; i += max) chunks.push(s.slice(i, i + max))];
    each turn moves [i] forward, so [length s] turns are enough. *)
Fixpoint chunk_loop (fuel : nat) (step : nat) (s : str) (i : nat)
    (chunks : list str) : list str :=
  match fuel with
  | O => chunks
  | S fuel' =>
      if i <? length s
      then chunk_loop fuel' step s (i + step) (chunks ++ [slice s i (i + step)])
      else chunks
  end.

Definition is_nil {A} (l : list A) : bool :=
  match l with [] => true | _ => false end.

(** [!s] on a string. *)
Definition is_empty (s : str) : bool := is_nil s.

(** A string made of white space only (the empty string is one). *)
Definition whitespace_only (s : str) : bool := forallb is_space s.

(** [content] is [None] for [null] and [undefined]. *)
Definition notionRichText (c : option str) : list rich_text :=
  let s := match c with Some x => x | None => [] end in
  if is_empty (trim s) then []
  else map mkText (chunk_loop (length s) max s 0 []).

(** The text a list of segments holds. *)
Definition segments_text (segs : list rich_text) : str :=
  concat (map content segs).

(* ================================================================== *)
(** * The remote store                                                 *)
(* ================================================================== *)

(** An opaque pagination token. *)
Definition cursor := nat.

(** A child block, as far as the scripts read it. *)
Record block : Type := mkBlock
  { block_id : str; block_type : str; block_rich_text : option (list str) }.

(** The [properties] a create request carries. *)
Record row : Type := mkRow
  { row_Name : list rich_text;
    row_Date : str;
    row_Location : list rich_text;
    row_Type : str;
    row_Source : str;
    row_WOD : list rich_text }.

(** A page of a query response, as far as [queryExistingForDate] reads it:
    the [plain_text] of the items of [Location.rich_text] and
    [Type.select.name]; [None] where the response leaves a field out. *)
Record page : Type := mkPage
  { page_Location : option (list str); page_Type : option str }.

Record children_reply : Type := mkChildren
  { results : option (list block); has_more : bool; next_cursor : option cursor }.

Record query_reply : Type := mkQuery
  { query_results : option (list page);
    query_has_more : bool;
    query_next_cursor : option cursor }.

(** The three requests of the scripts, with the parameters each can carry
    ([start_cursor] is [None] when the request leaves it out). *)
Inductive request : Type :=
| GetBlockChildren (blockId : str) (page_size : nat) (start_cursor : option cursor)
| QueryDatabase (databaseId : str) (page_size : nat) (date_equals : str)
    (start_cursor : option cursor)
| CreatePage (databaseId : str) (properties : row).

Definition reply_of (r : request) : Type :=
  match r with
  | GetBlockChildren _ _ _ => children_reply
  | QueryDatabase _ _ _ _ => query_reply
  | CreatePage _ _ => unit
  end.

(** [res.ok] with the parsed body, or the status of a failure. *)
Inductive http (A : Type) : Type :=
| HttpOk : A -> http A
| HttpError : nat -> http A.
Arguments HttpError {A} status.

(** The remote store is an external collaborator: any state [W] with a
    handler of the three requests. *)
Class Notion (W : Type) : Type :=
  { serve : forall r : request, W -> http (reply_of r) * W }.

(** A computation of a script: it may raise, and it threads the state of
    the store and the log of the requests issued so far. *)
Definition M (W A : Type) : Type :=
  W * list request -> result A * (W * list request).

Definition ret {W A} (a : A) : M W A := fun st => (Ok a, st).

Definition throw {W A} (e : error) : M W A := fun st => (Throw e, st).

Definition bind {W A B} (m : M W A) (k : A -> M W B) : M W B :=
  fun st =>
    match m st with
    | (Ok a, st') => k a st'
    | (Throw e, st') => (Throw e, st')
    end.

Definition lift {W A} (r : result A) : M W A := fun st => (r, st).

Notation "'do!' x <- m ; k" := (bind m (fun x => k))
  (at level 10, x pattern, m at level 100, k at level 200).

(** A store served from memory: the children of the one root page and the
    rows of the one database under it.  Children, and the rows with the
    requested date, are listed in pages of [page_size] from an offset
    token; a create appends its row. *)
Record store : Type := mkStore
  { store_children : list block; store_rows : list row }.

Definition page_of_row (r : row) : page :=
  {| page_Location := Some (map content (row_Location r));
     page_Type := Some (row_Type r) |}.

Definition offset_of (c : option cursor) : nat :=
  match c with Some o => o | None => 0 end.

(** The rows a query for [date_equals] matches, as pages. *)
Definition matching (date_equals : str) (w : store) : list page :=
  map page_of_row
    (filter (fun x => str_eqb (row_Date x) date_equals) (store_rows w)).

Definition store_serve (r : request) : store -> http (reply_of r) * store :=
  match r as r0 return store -> http (reply_of r0) * store with
  | GetBlockChildren _ page_size start_cursor => fun w =>
      let offset := offset_of start_cursor in
      let more := offset + page_size <? length (store_children w) in
      (HttpOk
         {| results := Some (firstn page_size (skipn offset (store_children w)));
            has_more := more;
            next_cursor := if more then Some (offset + page_size) else None |},
       w)
  | QueryDatabase _ page_size date_equals start_cursor => fun w =>
      let offset := offset_of start_cursor in
      let more := offset + page_size <? length (matching date_equals w) in
      (HttpOk
         {| query_results :=
              Some (firstn page_size (skipn offset (matching date_equals w)));
            query_has_more := more;
            query_next_cursor := if more then Some (offset + page_size) else None |},
       w)
  | CreatePage _ properties => fun w =>
      (HttpOk tt,
       {| store_children := store_children w;
          store_rows := store_rows w ++ [properties] |})
  end.

#[export] Instance store_notion : Notion store := {| serve := store_serve |}.

(* ================================================================== *)
(** * SyncEngine: daily_wod_to_notion_db.mjs                           *)
(* ================================================================== *)

(** [v] is [undefined] or the empty string. *)
Definition falsy (v : option str) : bool :=
  match v with
  | Some (_ :: _) => false
  | _ => true
  end.

(** A value inside a template literal. *)
Definition show (v : option str) : str :=
  match v with Some s => s | None => js "undefined" end.

(** [s.split(sep)] for a one-character separator. *)
Fixpoint split_on (sep : char) (s : str) : list str :=
  match s with
  | [] => [[]]
  | c :: s' =>
      if char_eqb c sep then [] :: split_on sep s'
      else match split_on sep s' with
           | l :: ls => (c :: l) :: ls
           | [] => [[c]]
           end
  end.

Definition ddmmyyyyFromISO (iso : str) : str :=
  let parts := split_on 45%N iso in
  let y := nth_error parts 0 in
  let m := nth_error parts 1 in
  let d := nth_error parts 2 in
  show d ++ js "/" ++ show m ++ js "/" ++ show y.

(** The process environment a run reads; [today] is what [dubaiTodayISO]
    returns. *)
Record env : Type := mkEnv
  { NOTION_TOKEN : option str;
    NOTION_PAGE_ID : option str;
    WOD_MARKDOWN : option str;
    today : str }.

(** The line a run prints. *)
Record summary : Type := mkSummary
  { sum_isoDate : str; created : nat; skipped : nat; total : nat }.

(** [`${e.loc}__${e.program}`] *)
Definition entry_key (e : entry) : str := loc e ++ js "__" ++ program e.

(** The key [queryExistingForDate] derives from a stored page. *)
Definition page_key (p : page) : str :=
  let l := match page_Location p with Some rt => concat rt | None => [] end in
  let t := match page_Type p with Some n => n | None => [] end in
  l ++ js "__" ++ t.

(** [" — "], with the dash U+2014. *)
Definition dash : str := js " " ++ [8212%N] ++ js " ".

(** The body [createWodRow] posts. *)
Definition wod_row (isoDate : str) (e : entry) : row :=
  let name := slice (isoDate ++ dash ++ loc e ++ dash ++ program e) 0 180 in
  {| row_Name := notionRichText (Some name);
     row_Date := isoDate;
     row_Location := notionRichText (Some (loc e));
     row_Type := if is_empty (program e) then js "WOD" else program e;
     row_Source := js "https://vfuae.com/wod/";
     row_WOD := notionRichText (Some (body e)) |}.

(** The [Set] the loop of [queryExistingForDate] fills from the pages of
    a response. *)
Definition existing_keys (ps : list page) : ListSet.set str :=
  fold_left (fun existing p => ListSet.set_add str_eq_dec (page_key p) existing)
    ps (ListSet.empty_set str).

Section Scripts.

Context {W : Type} `{Notion W}.

(** [notionReq]: the request is sent, and a response that is not [ok]
    raises. *)
Definition notionReq (r : request) : M W (reply_of r) :=
  fun '(w, log) =>
    match serve r w with
    | (HttpOk json, w') => (Ok json, (w', log ++ [r]))
    | (HttpError status, w') => (Throw (NotionApiError status), (w', log ++ [r]))
    end.

Definition getChildDatabaseId (pageId : str) : M W str :=
  do! data <- notionReq (GetBlockChildren pageId 100 None);
  match results data with
  | Some bs =>
      match find (fun b => str_eqb (block_type b) (js "child_database")) bs with
      | Some db => ret (block_id db)
      | None => throw NoChildDatabase
      end
  | None => throw NoChildDatabase
  end.

Definition queryExistingForDate (databaseId isoDate : str)
  : M W (ListSet.set str) :=
  do! res <- notionReq (QueryDatabase databaseId 100 isoDate None);
  ret (existing_keys (match query_results res with Some ps => ps | None => [] end)).

Definition createWodRow (databaseId isoDate : str) (e : entry) : M W unit :=
  notionReq (CreatePage databaseId (wod_row isoDate e)).

(** The [for ... of entries] loop of [main]. *)
Fixpoint sync_loop (databaseId isoDate : str) (existingKeys : ListSet.set str)
    (entries : list entry) (created skipped : nat) : M W (nat * nat) :=
  match entries with
  | [] => ret (created, skipped)
  | e :: rest =>
      let key := entry_key e in
      if ListSet.set_mem str_eq_dec key existingKeys
      then sync_loop databaseId isoDate existingKeys rest created (S skipped)
      else
        do! _ <- createWodRow databaseId isoDate e;
        sync_loop databaseId isoDate existingKeys rest (S created) skipped
  end.

Definition main (e : env) : M W summary :=
  let token := NOTION_TOKEN e in
  let pageId := NOTION_PAGE_ID e in
  if falsy token then throw MissingToken else
  if falsy pageId then throw MissingPageId else
  let isoDate := today e in
  let ddmmyyyy := ddmmyyyyFromISO isoDate in
  let sourceMd := WOD_MARKDOWN e in
  if falsy sourceMd then throw MissingMarkdown else
  do! entries <- lift (parseWodPage (show sourceMd) ddmmyyyy);
  if is_nil entries then throw (NoEntriesFound ddmmyyyy) else
  do! databaseId <- getChildDatabaseId (show pageId);
  do! existingKeys <- queryExistingForDate databaseId isoDate;
  do! (c, s) <- sync_loop databaseId isoDate existingKeys entries 0 0;
  ret {| sum_isoDate := isoDate; created := c; skipped := s;
         total := length entries |}.

End Scripts.

(* ================================================================== *)
(** * The diagnostic lister: notion_inspect_page.mjs                   *)
(* ================================================================== *)

Module InspectPage.

(** What the loop of [main] accumulates: the count [n], the [types] map in
    insertion order, and the [sample] of the first forty blocks. *)
Record listing : Type := mkListing
  { n : nat; types : list (str * nat); sample : list (str * str * str) }.

Definition blockPlainText (b : block) : str :=
  match block_rich_text b with
  | Some rt => concat rt
  | None => []
  end.

(** [types.set(t, (types.get(t) ?? 0) + 1)] *)
Fixpoint bump (t : str) (m : list (str * nat)) : list (str * nat) :=
  match m with
  | [] => [(t, 1)]
  | (k, v) :: m' => if str_eqb k t then (k, v + 1) :: m' else (k, v) :: bump t m'
  end.

(** The body of [for (const b of results)]. *)
Definition visit (acc : listing) (b : block) : listing :=
  {| n := S (n acc);
     types := bump (block_type b) (types acc);
     sample :=
       if length (sample acc) <? 40
       then sample acc ++ [(block_id b, block_type b, slice (blockPlainText b) 0 120)]
       else sample acc |}.

Section Script.

Context {W : Type} `{Notion W}.

(** [start_cursor] is set when [cursor] is truthy. *)
Definition listChildren (blockId : str) (c : option cursor) : M W children_reply :=
  notionReq (GetBlockChildren blockId 100 c).

(** The [while (true)] of [main]; a [results] that is not iterable
    raises. *)
Fixpoint list_loop (fuel : nat) (pageId : str) (c : option cursor)
    (acc : listing) : M W listing :=
  match fuel with
  | O => throw OutOfFuel
  | S fuel' =>
      do! reply <- listChildren pageId c;
      match results reply with
      | None => throw TypeError
      | Some bs =>
          let acc' := fold_left visit bs acc in
          if negb (has_more reply) then ret acc'
          else list_loop fuel' pageId (next_cursor reply) acc'
      end
  end.

Definition main (fuel : nat) (e : env) : M W listing :=
  let token := NOTION_TOKEN e in
  let pageId := NOTION_PAGE_ID e in
  if falsy token then throw MissingToken else
  if falsy pageId then throw MissingPageId else
  list_loop fuel (show pageId) None {| n := 0; types := []; sample := [] |}.

End Script.

End InspectPage.

(* ================================================================== *)
(** * Sample runs                                                      *)
(* ================================================================== *)

Definition sample_env (markdown : str) : env :=
  {| NOTION_TOKEN := Some (js "secret");
     NOTION_PAGE_ID := Some (js "page-1");
     WOD_MARKDOWN := Some markdown;
     today := js "2026-02-01" |}.

Definition database_block : block :=
  {| block_id := js "db-1"; block_type := js "child_database";
     block_rich_text := None |}.

Definition paragraph_block : block :=
  {| block_id := js "p"; block_type := js "paragraph";
     block_rich_text := Some [js "hello"] |}.

(** A root page holding the database and nothing stored in it yet. *)
Definition fresh_store : store :=
  {| store_children := [database_block]; store_rows := [] |}.

(** A run from a given store, with an empty request log. *)
Definition run {A} (m : M store A) (w : store) : result A * (store * list request) :=
  m (w, []).

Definition two_gyms : str :=
  js "#### 01/02/2026

#### Gym A
#### CrossFit
Warm up
5 rounds

#### 01/02/2026

#### Gym B
#### Open Gym
Free lift
".


(* ================================================================== *)
(** * Notions the statements use                                       *)
(* ================================================================== *)

(** [a] starts [b]; [a] occurs in [b]. *)
Definition prefix (a b : str) : Prop := exists q, b = a ++ q.
Definition infix (a b : str) : Prop := exists p q, b = p ++ a ++ q.

(** The line filters of [stripAnnoyingLines] drop a line that tests
    positive for either phrase. *)
Definition is_noise (line : str) : bool :=
  test re_no_reservation line || test re_more_than_5_min line.

(** The replacement of [/\n{3,}/g] read one character at a time: [run]
    counts the line feeds already copied from the current run, and a line
    feed is copied only while that count is below two. *)
Fixpoint squeeze (run : nat) (s : str) : str :=
  match s with
  | [] => []
  | c :: s' =>
      if char_eqb c LF
      then if run <? 2 then LF :: squeeze (S run) s' else squeeze run s'
      else c :: squeeze 0 s'
  end.

(** A pattern whose character classes do not tell a letter from its
    upper-case form: what the [i] flag means for the patterns here. *)
Fixpoint ignores_case (r : regex) : Prop :=
  match r with
  | Fail => True
  | Eps => True
  | Cls p => forall x, p (canonicalize x) = p x
  | Cat a b => ignores_case a /\ ignores_case b
  | Alt a b => ignores_case a /\ ignores_case b
  | Star a => ignores_case a
  end.

(** The entries [parseWodPage] pushes from line [i] on. *)
Definition parse_from (lines : list str) (target : str) (i : nat)
  : result (list entry) :=
  parse_loop (S (length lines)) lines target i [].

(** [lines[i] ?? lines[j] ?? ''] *)
Definition line_or (lines : list str) (i j : nat) : str :=
  match nth_error lines i with
  | Some x => x
  | None => match nth_error lines j with Some y => y | None => [] end
  end.

(** A header line as a field: trimmed, the hashes taken off, trimmed. *)
Definition field (line : str) : str := trim (strip_hashes (trim line)).

(** Line [i] is a date header, of date [d]. *)
Definition header_at (lines : list str) (i : nat) (d : str) : Prop :=
  exists h, nth_error lines i = Some h /\
            match_date_header (Some (trim h)) = Some d.

(** The entry of a record of date [d], kept when [d] is the target. *)
Definition emit (target d l p b : str) : list entry :=
  if str_eqb d target then [mkEntry d l p b] else [].

Definition rmap {A B} (f : A -> B) (r : result A) : result B :=
  match r with
  | Ok a => Ok (f a)
  | Throw e => Throw e
  end.

(** The entries of a run that its loop creates: those whose key is not in
    the set queried at the start. *)
Definition is_new (existingKeys : ListSet.set str) (e : entry) : bool :=
  negb (ListSet.set_mem str_eq_dec (entry_key e) existingKeys).

Definition create_request (databaseId isoDate : str) (e : entry) : request :=
  CreatePage databaseId (wod_row isoDate e).

(** The outcome of a request, as [notionReq] returns or raises it. *)
Definition outcome {A} (h : http A) : result A :=
  match h with
  | HttpOk json => Ok json
  | HttpError status => Throw (NotionApiError status)
  end.

(** The configuration checks of [main] pass. *)
Definition configured (e : env) : Prop :=
  falsy (NOTION_TOKEN e) = false /\
  falsy (NOTION_PAGE_ID e) = false /\
  falsy (WOD_MARKDOWN e) = false.

(** A page of another day. *)
Definition other_day : str :=
  js "#### 31/01/2026

#### Gym A
#### CrossFit
Row
".


(** A page whose record has a blank line where the program is expected. *)
Definition no_program : str :=
  js "#### 01/02/2026

#### Gym A

Warm up".

(** A root page whose database comes after a hundred other blocks. *)
Definition crowded_page : store :=
  {| store_children := repeat paragraph_block 100 ++ [database_block];
     store_rows := [] |}.

(** A database that already holds a hundred rows of one key for the day,
    and then one row of another key. *)
Definition crowded_database : store :=
  {| store_children := [database_block];
     store_rows :=
       repeat (wod_row (js "2026-02-01")
                 (mkEntry (js "01/02/2026") (js "Gym A") (js "CrossFit") (js "Row")))
         100
       ++ [wod_row (js "2026-02-01")
             (mkEntry (js "01/02/2026") (js "Gym B") (js "Open Gym") (js "Lift"))] |}.

(* ================================================================== *)
(** * Configuration: loadEnv                                           *)
(* ================================================================== *)

(** [process.env]: the value of each variable, [None] when it is unset. *)
Definition process_env : Type := str -> option str.

(** The class [[A-Z0-9_]]. *)
Definition is_key_char (c : char) : bool :=
  ((65 <=? c) && (c <=? 90) || (48 <=? c) && (c <=? 57) || (c =? 95))%N.

(** The line terminators, which [.] does not match. *)
Definition is_line_terminator (c : char) : bool :=
  ((c =? 10) || (c =? 13) || (c =? 8232) || (c =? 8233))%N.

Fixpoint take_while (p : char -> bool) (s : str) : str :=
  match s with
  | [] => []
  | c :: s' => if p c then c :: take_while p s' else []
  end.

(** The two halves of a surrogate pair. *)
Definition is_high_surrogate (c : char) : bool :=
  ((55296 <=? c) && (c <=? 56319))%N.

Definition is_low_surrogate (c : char) : bool :=
  ((56320 <=? c) && (c <=? 57343))%N.

(** A string as it reads after it was written out as UTF-8: a pair of
    surrogates stays, a surrogate without its partner becomes U+FFFD. *)
Fixpoint to_well_formed (s : str) : str :=
  match s with
  | [] => []
  | c :: r =>
      if is_high_surrogate c then
        match r with
        | d :: r' =>
            if is_low_surrogate d then c :: d :: to_well_formed r'
            else 65533%N :: to_well_formed r
        | [] => [65533%N]
        end
      else if is_low_surrogate c then 65533%N :: to_well_formed r
      else c :: to_well_formed r
  end.

(** The value [process.env] holds for a name once [val] was assigned to
    it.  Node hands the assigned string to the operating system as a
    UTF-8 C string, so what is read back is the well-formed text of [val]
    up to its first U+0000, not always [val] itself. *)
Definition env_value (val : str) : str :=
  take_while (fun c => negb (c =? 0)%N) (to_well_formed val).

(** [process.env[key] = val]; the names [loadEnv] assigns to are made of
    the characters of [[A-Z0-9_]], which are stored as they are. *)
Definition set_var (key val : str) (p : process_env) : process_env :=
  fun k => if str_eqb k key then Some (env_value val) else p k.

(** A string that is stored in [process.env] as it is: it holds no
    U+0000 and no surrogate. *)
Definition stored_verbatim (val : str) : bool :=
  forallb (fun c => negb (c =? 0)%N && negb (is_high_surrogate c)
                    && negb (is_low_surrogate c)) val.

(** The [line.match] of [loadEnv], reduced to its two capture groups: the
    pattern is, from start to end of the line, optional white space, a
    name in [[A-Z0-9_]+], optional white space, an equals sign, optional
    white space, the value as any run of [.], optional white space.  Every quantifier is greedy and what follows it starts
    outside its class, so the match is the one found without backtracking:
    the name is the run of name characters after the leading white space,
    the value the run of characters up to the first line terminator after
    the white space that follows the equals sign, and only white space may
    remain. *)
Definition match_env_line (line : str) : option (str * str) :=
  let s1 := drop_while is_space line in
  let key := take_while is_key_char s1 in
  if is_nil key then None
  else
    match drop_while is_space (drop_while is_key_char s1) with
    | c :: s3 =>
        if char_eqb c 61%N then
          let s4 := drop_while is_space s3 in
          let val := take_while (fun x => negb (is_line_terminator x)) s4 in
          let rest := drop_while (fun x => negb (is_line_terminator x)) s4 in
          if forallb is_space rest then Some (key, val) else None
        else None
    | [] => None
    end.

(** [v.replace(/^q|q$/g, ...)] with the empty replacement, for a quote
    character [q]: one at the start and one at the end are removed. *)
Definition strip_quote (q : char) (v : str) : str :=
  let v1 := match v with
            | c :: r => if char_eqb c q then r else v
            | [] => []
            end in
  match rev v1 with
  | c :: r => if char_eqb c q then rev r else v1
  | [] => []
  end.

(** The two [replace] calls on [val]: a double quote at either end is
    removed, then a single quote at either end. *)
Definition unquote (v : str) : str := strip_quote 39%N (strip_quote 34%N v).

(** The body of the loop of [loadEnv] over the lines of the file. *)
Definition load_line (p : process_env) (line : str) : process_env :=
  match match_env_line line with
  | None => p
  | Some (key, val) =>
      if falsy (p key) then set_var key (unquote val) p else p
  end.

(** [loadEnv]; [file] is the text of [.env], [None] when there is no such
    file. *)
Definition loadEnv (file : option str) (p : process_env) : process_env :=
  match file with
  | None => p
  | Some raw => fold_left load_line (split_lines raw) p
  end.

(** What [main] reads from [process.env] after [loadEnv]. *)
Definition read_env (p : process_env) (isoDate : str) : env :=
  {| NOTION_TOKEN := p (js "NOTION_TOKEN");
     NOTION_PAGE_ID := p (js "NOTION_PAGE_ID");
     WOD_MARKDOWN := p (js "WOD_MARKDOWN");
     today := isoDate |}.

(** The name a line of [.env] defines, if it is a definition. *)
Definition defines (line : str) : option str :=
  option_map fst (match_env_line line).

(* ================================================================== *)
(** * Further notions the statements use                               *)
(* ================================================================== *)

(** A text that neither starts nor ends with white space. *)
Definition trimmed (s : str) : Prop :=
  (forall c r, s = c :: r -> is_space c = false) /\
  (forall r c, s = r ++ [c] -> is_space c = false).

(** A line that is no date header. *)
Definition plain_line (l : str) : Prop :=
  test_date_header (Some (trim l)) = false.

(** The lines of one record of the page, in the layout [parseWodPage]
    reads: the date header, the line after it, the location line, the
    program line, and the body lines. *)
Record record_lines : Type := mkRecordLines
  { r_header : str; r_gap : str; r_loc : str; r_prog : str; r_body : list str }.

Definition lines_of (r : record_lines) : list str :=
  r_header r :: r_gap r :: r_loc r :: r_prog r :: r_body r.

(** The header of [r] carries the date [d] and no body line of [r] is a
    date header. *)
Definition well_formed (r : record_lines) (d : str) : Prop :=
  match_date_header (Some (trim (r_header r))) = Some d /\
  Forall plain_line (r_body r).

(** The entry [parseWodPage] makes of a record. *)
Definition entry_of (target : str) (rd : record_lines * str) : list entry :=
  emit target (snd rd) (field (r_loc (fst rd))) (field (r_prog (fst rd)))
    (stripAnnoyingLines (join [LF] (r_body (fst rd)))).

(** [types.get(t)] *)
Fixpoint types_get (t : str) (m : list (str * nat)) : option nat :=
  match m with
  | [] => None
  | (k, v) :: m' => if str_eqb k t then Some v else types_get t m'
  end.

(** The number of blocks of type [t]. *)
Definition count_type (t : str) (bs : list block) : nat :=
  length (filter (fun b => str_eqb (block_type b) t) bs).

(** The entry of [sample] a block gives. *)
Definition sample_of (b : block) : str * str * str :=
  (block_id b, block_type b, slice (InspectPage.blockPlainText b) 0 120).

(** The requests of a run, in order: the children of the page, the query,
    and one create per entry. *)
Definition requests_of (pageId databaseId isoDate : str) (es : list entry)
  : list request :=
  GetBlockChildren pageId 100 None
  :: QueryDatabase databaseId 100 isoDate None
  :: map (create_request databaseId isoDate) es.

(** The store after it has served the requests [rs], one after the other. *)
Fixpoint after {W : Type} `{Notion W} (rs : list request) (w : W) : W :=
  match rs with
  | [] => w
  | r :: rs' => after rs' (snd (serve r w))
  end.




(** A store that answers lookups and queries from memory as [store] does
    and refuses every create with status 403, as for a database the
    integration may read and not write. *)
Record read_only : Type := mkReadOnly { held : store }.

Definition read_only_serve (r : request)
  : read_only -> http (reply_of r) * read_only :=
  match r as r0 return read_only -> http (reply_of r0) * read_only with
  | GetBlockChildren blockId page_size start_cursor => fun w =>
      (fst (store_serve (GetBlockChildren blockId page_size start_cursor) (held w)),
       w)
  | QueryDatabase databaseId page_size date_equals start_cursor => fun w =>
      (fst (store_serve (QueryDatabase databaseId page_size date_equals start_cursor)
              (held w)),
       w)
  | CreatePage _ _ => fun w => (HttpError 403, w)
  end.

#[export] Instance read_only_notion : Notion read_only :=
  {| serve := read_only_serve |}.

(** Two empty lines in a row among [lines]. *)
Definition adjacent_empty (lines : list str) : Prop :=
  exists pre post, lines = pre ++ [] :: [] :: post.
(* ================================================================== *)
(** * Properties of the string operations                              *)
(* ================================================================== *)

Lemma drop_while_nil_iff (p : char -> bool) (s : str) :
  drop_while p s = [] <-> forallb p s = true.
Proof.
  induction s as [|c s IH]; simpl.
  - tauto.
  - destruct (p c); simpl; [exact IH | split; discriminate].
Qed.

Lemma drop_while_head (p : char -> bool) (s : str) (c : char) (r : str) :
  drop_while p s = c :: r -> p c = false.
Proof.
  induction s as [|d s IH]; simpl; [discriminate|].
  destruct (p d) eqn:E; [exact IH|].
  intros [= <- _]; exact E.
Qed.

Lemma drop_while_suffix (p : char -> bool) (s : str) :
  exists dropped, s = dropped ++ drop_while p s /\ forallb p dropped = true.
Proof.
  induction s as [|c s [d [IH1 IH2]]]; simpl.
  - exists []; auto.
  - destruct (p c) eqn:E.
    + exists (c :: d); simpl; rewrite E, IH2; split; [f_equal; exact IH1 | reflexivity].
    + exists []; auto.
Qed.

Lemma forallb_rev (p : char -> bool) (s : str) :
  forallb p (rev s) = forallb p s.
Proof.
  induction s as [|c s IH]; simpl; [reflexivity|].
  rewrite forallb_app, IH; simpl. rewrite andb_true_r. apply andb_comm.
Qed.

Lemma trim_empty_iff (s : str) :
  is_empty (trim s) = true <-> whitespace_only s = true.
Proof.
  unfold is_empty, trim, trimEnd, trimStart, whitespace_only.
  destruct (drop_while_suffix is_space s) as [d [Hs Hd]].
  destruct (drop_while is_space s) as [|c r] eqn:E.
  - simpl. apply drop_while_nil_iff in E. rewrite E. tauto.
  - assert (Hc : is_space c = false) by (eapply drop_while_head; eauto).
    split; intros Hx.
    + exfalso.
      assert (Hn : drop_while is_space (rev (c :: r)) = []).
      { destruct (drop_while is_space (rev (c :: r))) as [|x y] eqn:E2; [reflexivity|].
        simpl in Hx. destruct (rev y); discriminate. }
      apply drop_while_nil_iff in Hn. rewrite forallb_rev in Hn.
      simpl in Hn. rewrite Hc in Hn. discriminate.
    + exfalso. rewrite Hs, forallb_app in Hx. simpl in Hx.
      rewrite Hc in Hx. simpl in Hx. rewrite andb_false_r in Hx. discriminate.
Qed.

(** [trim] leaves an infix of its argument. *)
Lemma trim_infix (s : str) :
  exists p q, s = p ++ trim s ++ q.
Proof.
  unfold trim, trimEnd, trimStart.
  destruct (drop_while_suffix is_space s) as [d [Hs _]].
  destruct (drop_while_suffix is_space (rev (drop_while is_space s))) as [d' [Hs' _]].
  exists d, (rev d').
  rewrite <- rev_app_distr, <- Hs', rev_involutive. exact Hs.
Qed.

Section Chunking.

Variable step : nat.
Hypothesis step_pos : 0 < step.

Lemma slice_step (s : str) (i : nat) :
  slice s i (i + step) = firstn step (skipn i s).
Proof. unfold slice. f_equal. lia. Qed.

Lemma chunk_loop_concat (fuel : nat) : forall (s : str) (i : nat) (chunks : list str),
  length s - i <= fuel ->
  concat (chunk_loop fuel step s i chunks) = concat chunks ++ skipn i s.
Proof.
  induction fuel as [|fuel IH]; intros s i chunks Hf; simpl.
  - rewrite skipn_all2 by lia. now rewrite app_nil_r.
  - destruct (i <? length s) eqn:E.
    + apply Nat.ltb_lt in E.
      rewrite IH by lia.
      rewrite concat_app; simpl. rewrite app_nil_r, <- app_assoc. f_equal.
      rewrite slice_step, Nat.add_comm, <- skipn_skipn.
      apply firstn_skipn.
    + apply Nat.ltb_ge in E. rewrite skipn_all2 by lia. now rewrite app_nil_r.
Qed.

Lemma chunk_loop_bounded (fuel : nat) : forall (s : str) (i : nat) (chunks : list str),
  Forall (fun c => length c <= step) chunks ->
  Forall (fun c => length c <= step) (chunk_loop fuel step s i chunks).
Proof.
  induction fuel as [|fuel IH]; intros s i chunks Hc; simpl; [exact Hc|].
  destruct (i <? length s); [|exact Hc].
  apply IH. apply Forall_app; split; [exact Hc|].
  constructor; [|constructor].
  rewrite slice_step. rewrite length_firstn. lia.
Qed.

End Chunking.

(* ================================================================== *)
(** * Segment chunking                                                 *)
(* ================================================================== *)

Lemma chunk_demo :
  map (@length char) (chunk_loop 4000 max (repeat 97%N 4000) 0 []) = [1800; 1800; 400].
Proof. vm_compute. reflexivity. Qed.

(** C5, as the specification states it, fails on white space: the guard
    [if (!s.trim()) return []] drops a text made of one blank, so the
    concatenation of its segments is not the text. *)
Lemma notionRichText_blank_not_reproduced :
  notionRichText (Some (js " ")) = [] /\
  segments_text (notionRichText (Some (js " "))) <> js " ".
Proof. split; [reflexivity | vm_compute; discriminate]. Qed.

Lemma whitespace_only_false (s : str) :
  is_empty (trim s) = false <-> whitespace_only s = false.
Proof.
  pose proof (trim_empty_iff s) as Hi.
  destruct (is_empty (trim s)), (whitespace_only s); intuition congruence.
Qed.

Lemma notionRichText_bounded (s : str) :
  Forall (fun seg => length (content seg) <= max) (notionRichText (Some s)).
Proof.
  unfold notionRichText. destruct (is_empty (trim s)); [constructor|].
  apply Forall_map; simpl.
  apply (@chunk_loop_bounded max); [unfold max; lia | constructor].
Qed.

Lemma notionRichText_text (s : str) :
  whitespace_only s = false -> segments_text (notionRichText (Some s)) = s.
Proof.
  intros Hw. apply whitespace_only_false in Hw.
  unfold notionRichText, segments_text. rewrite Hw.
  rewrite map_map; simpl. rewrite map_id.
  rewrite (@chunk_loop_concat max) by (unfold max; lia).
  reflexivity.
Qed.

Lemma notionRichText_blank (s : str) :
  whitespace_only s = true -> notionRichText (Some s) = [].
Proof.
  intros Hw. apply trim_empty_iff in Hw.
  unfold notionRichText. now rewrite Hw.
Qed.

(** C5 (amended): every segment [notionRichText] produces has at most 1800
    code units; when the text holds a character that is not white space
    the segments, concatenated in order, are the text; and a text of white
    space only yields no segment at all. *)
Theorem notionRichText_round_trip (s : str) :
  Forall (fun seg => length (content seg) <= 1800) (notionRichText (Some s)) /\
  (whitespace_only s = false -> segments_text (notionRichText (Some s)) = s) /\
  (whitespace_only s = true -> notionRichText (Some s) = []).
Proof.
  split; [apply notionRichText_bounded|].
  split; [apply notionRichText_text | apply notionRichText_blank].
Qed.

Lemma notionRichText_round_trip_witness :
  whitespace_only (js "5 rounds") = false /\
  segments_text (notionRichText (Some (js "5 rounds"))) = js "5 rounds".
Proof.
  split; [reflexivity|].
  apply (proj1 (proj2 (notionRichText_round_trip (js "5 rounds")))).
  reflexivity.
Defined.

(* ================================================================== *)
(** * Occurrences and matching                                         *)
(* ================================================================== *)

Lemma infix_refl (a : str) : infix a a.
Proof. exists [], []. now rewrite app_nil_r. Qed.

Lemma infix_nil (b : str) : infix [] b.
Proof. exists [], b. reflexivity. Qed.

Lemma prefix_infix (a b : str) : prefix a b -> infix a b.
Proof. intros [q ->]. exists [], q. reflexivity. Qed.

Lemma infix_cons (a b : str) (c : char) : infix a b -> infix a (c :: b).
Proof. intros [p [q ->]]. exists (c :: p), q. reflexivity. Qed.

Lemma infix_app_l (a b x : str) : infix a b -> infix a (x ++ b).
Proof. intros [p [q ->]]. exists (x ++ p), q. now rewrite app_assoc. Qed.

Lemma infix_app_r (a b x : str) : infix a b -> infix a (b ++ x).
Proof.
  intros [p [q ->]]. exists p, (q ++ x). now rewrite <- !app_assoc.
Qed.

Lemma infix_trans (a b c : str) : infix a b -> infix b c -> infix a c.
Proof.
  intros Hab [p [q ->]]. apply infix_app_l, infix_app_r, Hab.
Qed.

Lemma prefix_cons (a b : str) (c : char) : prefix a b -> prefix (c :: a) (c :: b).
Proof. intros [q ->]. exists q. reflexivity. Qed.

(** An occurrence in [c :: b] starts at [c] or lies in [b]. *)
Lemma infix_cons_inv (a b : str) (c : char) :
  infix a (c :: b) ->
  a = [] \/ (exists a', a = c :: a' /\ prefix a' b) \/ infix a b.
Proof.
  intros [p [q Hq]]. destruct p as [|x p]; simpl in Hq.
  - destruct a as [|y a]; [now left|]. right; left.
    injection Hq as <- ->. exists a; split; [reflexivity | now exists q].
  - right; right. injection Hq as _ ->. now exists p, q.
Qed.

Lemma prefix_cons_inv (a b : str) (c : char) :
  prefix a (c :: b) -> a = [] \/ exists a', a = c :: a' /\ prefix a' b.
Proof.
  intros [q Hq]. destruct a as [|y a]; [now left|]. right.
  simpl in Hq. injection Hq as <- ->. exists a; split; [reflexivity | now exists q].
Qed.

Lemma prefix_before_lf (x y : str) : forall a : str,
  ~ In LF a -> prefix a (x ++ LF :: y) -> prefix a x.
Proof.
  induction x as [|c x IH]; intros a Ha Hp; simpl in Hp.
  - apply prefix_cons_inv in Hp as [-> | [a' [-> _]]]; [now exists [] |].
    exfalso; apply Ha; now left.
  - apply prefix_cons_inv in Hp as [-> | [a' [-> Hp]]]; [now exists (c :: x) |].
    apply prefix_cons, IH; [|exact Hp].
    intros Hin; apply Ha; now right.
Qed.

(** An occurrence without line feed lies on one side of a line feed. *)
Lemma infix_around_lf (x y a : str) :
  ~ In LF a -> infix a (x ++ LF :: y) -> infix a x \/ infix a y.
Proof.
  intros Ha. induction x as [|c x IH]; simpl; intros Hi.
  - apply infix_cons_inv in Hi as [-> | [[a' [-> _]] | Hi]].
    + left; apply infix_nil.
    + exfalso; apply Ha; now left.
    + now right.
  - apply infix_cons_inv in Hi as [-> | [[a' [-> Hp]] | Hi]].
    + left; apply infix_nil.
    + left. apply prefix_infix, prefix_cons.
      apply prefix_before_lf with (y := y); [|exact Hp].
      intros Hin; apply Ha; now right.
    + destruct (IH Hi) as [Hx | Hy]; [left; now apply infix_cons | now right].
Qed.

Lemma infix_join_lf (ls : list str) (a : str) :
  ~ In LF a -> infix a (join [LF] ls) ->
  a = [] \/ exists l, In l ls /\ infix a l.
Proof.
  intros Ha. induction ls as [|l ls IH]; intros Hi.
  - destruct Hi as [p [q Hq]]. left.
    destruct p; [destruct a; [reflexivity | discriminate] | discriminate].
  - destruct ls as [|l2 rest].
    + right. exists l; split; [now left | exact Hi].
    + change (join [LF] (l :: l2 :: rest))
        with (l ++ LF :: join [LF] (l2 :: rest)) in Hi.
      apply infix_around_lf in Hi as [Hl | Hr]; [| |exact Ha].
      * right. exists l; split; [now left | exact Hl].
      * destruct (IH Hr) as [-> | [l' [Hin Hl']]]; [now left|].
        right. exists l'; split; [now right | exact Hl'].
Qed.

Lemma matches_prefix_app (s q : str) : forall r : regex,
  matches_prefix r s = true -> matches_prefix r (s ++ q) = true.
Proof.
  induction s as [|c s IH]; intros r; simpl.
  - rewrite orb_false_r. intros Hn. destruct q; simpl; rewrite Hn; reflexivity.
  - destruct (nullable r); simpl; [reflexivity | apply IH].
Qed.

Lemma test_app_r (r : regex) (s q : str) :
  test r s = true -> test r (s ++ q) = true.
Proof.
  induction s as [|c s IH].
  - simpl. rewrite !orb_false_r. intros Hn.
    destruct q; simpl; rewrite Hn; reflexivity.
  - change (test r (c :: s)) with (matches_prefix r (c :: s) || test r s).
    change (test r ((c :: s) ++ q))
      with (matches_prefix r ((c :: s) ++ q) || test r (s ++ q)).
    intros Ht. apply orb_true_iff in Ht as [Hm | Ht]; apply orb_true_iff.
    + left. now apply matches_prefix_app.
    + right. now apply IH.
Qed.

Lemma test_app_l (r : regex) (p s : str) :
  test r s = true -> test r (p ++ s) = true.
Proof.
  intros Ht. induction p as [|c p IH]; [exact Ht|].
  change (test r ((c :: p) ++ s))
    with (matches_prefix r (c :: p ++ s) || test r (p ++ s)).
  rewrite IH. apply orb_true_r.
Qed.

(** A pattern without anchors that matches inside an occurrence matches
    inside the whole. *)
Lemma test_infix (r : regex) (a b : str) :
  infix a b -> test r a = true -> test r b = true.
Proof.
  intros [p [q ->]] Ht. now apply test_app_l, test_app_r.
Qed.

Lemma is_noise_infix (a b : str) :
  infix a b -> is_noise b = false -> is_noise a = false.
Proof.
  unfold is_noise. intros Hi Hb.
  apply orb_false_iff in Hb as [H1 H2]. apply orb_false_iff; split.
  - destruct (test re_no_reservation a) eqn:E; [|reflexivity].
    rewrite (test_infix _ Hi E) in H1. discriminate.
  - destruct (test re_more_than_5_min a) eqn:E; [|reflexivity].
    rewrite (test_infix _ Hi E) in H2. discriminate.
Qed.

(* ================================================================== *)
(** * The replacement of line-feed runs                                *)
(* ================================================================== *)

Lemma char_eqb_eq (a b : char) : char_eqb a b = true <-> a = b.
Proof. apply N.eqb_eq. Qed.

Lemma char_eqb_neq (a b : char) : char_eqb a b = false <-> a <> b.
Proof. apply N.eqb_neq. Qed.

Lemma leading_lf_split (s : str) :
  s = repeat LF (leading_lf s) ++ skipn (leading_lf s) s /\
  leading_lf (skipn (leading_lf s) s) = 0.
Proof.
  induction s as [|c s [IH1 IH2]]; simpl; [auto|].
  destruct (char_eqb c LF) eqn:E; simpl.
  - apply char_eqb_eq in E; subst c. split; [f_equal; exact IH1 | exact IH2].
  - rewrite E. auto.
Qed.

Lemma leading_lf_le (s : str) : leading_lf s <= length s.
Proof.
  induction s as [|c s IH]; simpl; [lia|]. destruct (char_eqb c LF); lia.
Qed.

Lemma squeeze_reset (s : str) : forall run : nat,
  leading_lf s + run <= 2 -> squeeze run s = squeeze 0 s.
Proof.
  induction s as [|c s IH]; intros run Hr; simpl in *; [reflexivity|].
  destruct (char_eqb c LF); [|reflexivity].
  assert (E : (run <? 2) = true) by (apply Nat.ltb_lt; lia).
  rewrite E. f_equal. rewrite (IH (S run)), (IH 1) by lia. reflexivity.
Qed.

Lemma squeeze_full_run (k : nat) (b : str) :
  squeeze 2 (repeat LF k ++ b) = squeeze 2 b.
Proof. induction k as [|k IH]; simpl; [reflexivity | exact IH]. Qed.

Lemma squeeze_long_run (k : nat) (b : str) :
  3 <= k -> leading_lf b = 0 ->
  squeeze 0 (repeat LF k ++ b) = LF :: LF :: squeeze 0 b.
Proof.
  intros Hk Hb. destruct k as [|[|k]]; try lia. simpl.
  rewrite squeeze_full_run. f_equal. f_equal. apply squeeze_reset. lia.
Qed.

(** The scan of the regular expression and the character-wise reading
    agree. *)
Lemma replace_nl3_squeeze (fuel : nat) : forall s : str,
  length s <= fuel -> replace_nl3 fuel s = squeeze 0 s.
Proof.
  induction fuel as [|fuel IH]; intros s Hf.
  - destruct s; [reflexivity | simpl in Hf; lia].
  - destruct s as [|c s']; [reflexivity|].
    change (replace_nl3 (S fuel) (c :: s')) with
      (let k := leading_lf (c :: s') in
       if 3 <=? k then LF :: LF :: replace_nl3 fuel (skipn k (c :: s'))
       else c :: replace_nl3 fuel s').
    cbv zeta.
    destruct (3 <=? leading_lf (c :: s')) eqn:E.
    + apply Nat.leb_le in E.
      destruct (leading_lf_split (c :: s')) as [Hs Hz].
      pose proof (leading_lf_le (c :: s')) as Hle.
      set (k := leading_lf (c :: s')) in *.
      set (r := skipn k (c :: s')) in *.
      rewrite IH.
      * rewrite Hs. symmetry. now apply squeeze_long_run.
      * unfold r. rewrite length_skipn. lia.
    + apply Nat.leb_gt in E. rewrite IH by (simpl in Hf; lia).
      simpl in *. destruct (char_eqb c LF) eqn:Ec; [|reflexivity].
      apply char_eqb_eq in Ec; subst c. f_equal.
      symmetry. apply squeeze_reset. lia.
Qed.

Lemma collapse_newlines_squeeze (s : str) : collapse_newlines s = squeeze 0 s.
Proof. apply replace_nl3_squeeze. lia. Qed.

Lemma squeeze_prefix (s : str) : forall (run : nat) (a : str),
  run < 2 -> ~ In LF a -> prefix a (squeeze run s) -> prefix a s.
Proof.
  induction s as [|c s IH]; intros run a Hr Ha Hp; simpl in Hp; [exact Hp|].
  destruct (char_eqb c LF) eqn:E.
  - apply Nat.ltb_lt in Hr. rewrite Hr in Hp.
    apply prefix_cons_inv in Hp as [-> | [a' [-> _]]]; [now exists (c :: s) |].
    exfalso; apply Ha; now left.
  - apply prefix_cons_inv in Hp as [-> | [a' [-> Hp]]]; [now exists (c :: s) |].
    apply prefix_cons, (IH 0); [lia | | exact Hp].
    intros Hin; apply Ha; now right.
Qed.

(** What stands between line feeds after the replacement stood between
    line feeds before it. *)
Lemma squeeze_infix (s : str) : forall (run : nat) (a : str),
  ~ In LF a -> infix a (squeeze run s) -> infix a s.
Proof.
  induction s as [|c s IH]; intros run a Ha Hi; simpl in Hi; [exact Hi|].
  destruct (char_eqb c LF) eqn:E.
  - destruct (run <? 2).
    + apply infix_cons_inv in Hi as [-> | [[a' [-> _]] | Hi]].
      * apply infix_nil.
      * exfalso; apply Ha; now left.
      * apply infix_cons. eapply IH; eauto.
    + apply infix_cons. eapply IH; eauto.
  - apply infix_cons_inv in Hi as [-> | [[a' [-> Hp]] | Hi]].
    + apply infix_nil.
    + apply prefix_infix, prefix_cons.
      apply squeeze_prefix with (run := 0); [lia | | exact Hp].
      intros Hin; apply Ha; now right.
    + apply infix_cons. eapply IH; eauto.
Qed.

Lemma prefix_two_lf (x : str) : prefix [LF; LF] x -> 2 <= leading_lf x.
Proof.
  intros [q ->]. simpl. lia.
Qed.

Lemma squeeze_no_triple (s : str) : forall run : nat,
  run <= 2 ->
  leading_lf (squeeze run s) + run <= 2 /\ ~ infix [LF; LF; LF] (squeeze run s).
Proof.
  induction s as [|c s IH]; intros run Hr; simpl.
  - split; [lia|]. intros [p [q Hq]]. destruct p; discriminate.
  - destruct (char_eqb c LF) eqn:E.
    + destruct (run <? 2) eqn:Er.
      * apply Nat.ltb_lt in Er. destruct (IH (S run)) as [IH1 IH2]; [lia|].
        split; [simpl; lia|].
        intros Hi. apply infix_cons_inv in Hi as [Hi | [[a' [Ha' Hp]] | Hi]].
        -- discriminate.
        -- injection Ha' as <-. apply prefix_two_lf in Hp. lia.
        -- now apply IH2.
      * apply IH. lia.
    + split; [simpl; rewrite E; lia|].
      intros Hi. apply infix_cons_inv in Hi as [Hi | [[a' [Ha' _]] | Hi]].
      * discriminate.
      * injection Ha' as Hc _. apply char_eqb_neq in E. congruence.
      * destruct (IH 0) as [_ IH2]; [lia|]. now apply IH2.
Qed.

Lemma squeeze_app (a x : str) : forall run : nat,
  (forall r, a <> r ++ [LF]) ->
  squeeze run (a ++ x)
  = squeeze run a ++ squeeze (match a with [] => run | _ => 0 end) x.
Proof.
  induction a as [|c a IH]; intros run Ha; [reflexivity|].
  assert (Ha' : forall r, a <> r ++ [LF]).
  { intros r ->. apply (Ha (c :: r)). reflexivity. }
  destruct a as [|d a].
  - simpl. destruct (char_eqb c LF) eqn:E; [|reflexivity].
    apply char_eqb_eq in E; subst c. exfalso. apply (Ha []). reflexivity.
  - remember (d :: a) as a1 eqn:Ea1. simpl.
    destruct (char_eqb c LF); [destruct (run <? 2)|];
      rewrite IH by exact Ha'; subst a1; reflexivity.
Qed.

(** A run of three or more line feeds between two other characters
    becomes exactly two line feeds. *)
Lemma collapse_newlines_run (a b : str) (k : nat) :
  3 <= k -> (forall r, a <> r ++ [LF]) -> leading_lf b = 0 ->
  collapse_newlines (a ++ repeat LF k ++ b)
  = collapse_newlines a ++ [LF; LF] ++ collapse_newlines b.
Proof.
  intros Hk Ha Hb. rewrite !collapse_newlines_squeeze.
  rewrite squeeze_app by exact Ha.
  replace (squeeze (match a with [] => 0 | _ => 0 end) (repeat LF k ++ b))
    with (squeeze 0 (repeat LF k ++ b)) by (destruct a; reflexivity).
  now rewrite squeeze_long_run.
Qed.

(* ================================================================== *)
(** * NoiseFilter                                                      *)
(* ================================================================== *)

Lemma trim_no_leading (s : str) (c : char) (r : str) :
  trim s = c :: r -> is_space c = false.
Proof.
  unfold trim, trimEnd, trimStart. intros Ht.
  destruct (drop_while_suffix is_space (rev (drop_while is_space s)))
    as [d [Hd _]].
  apply (f_equal (@rev char)) in Hd.
  rewrite rev_involutive, rev_app_distr, Ht in Hd. simpl in Hd.
  eapply drop_while_head; eauto.
Qed.

Lemma trim_no_trailing (s : str) (c : char) (r : str) :
  trim s = r ++ [c] -> is_space c = false.
Proof.
  unfold trim, trimEnd. intros Ht.
  apply (f_equal (@rev char)) in Ht.
  rewrite rev_involutive, rev_app_distr in Ht. simpl in Ht.
  eapply drop_while_head; eauto.
Qed.

(** The first line of a text starts it, no line holds a line feed, and
    every line occurs in the text. *)
Lemma split_lines_shape (u : str) :
  (exists h t, split_lines u = h :: t /\ prefix h u /\
     forall l, In l (h :: t) -> infix l u /\ ~ In LF l) /\
  (forall c, exists h t, split_lines (c :: u) = h :: t /\ prefix h (c :: u) /\
     forall l, In l (h :: t) -> infix l (c :: u) /\ ~ In LF l).
Proof.
  assert (Hnil : forall v : str, infix [] v /\ ~ In LF []).
  { intros v; split; [apply infix_nil | intros []]. }
  induction u as [|d u [IHu IHdu]].
  - split.
    + exists [], []; (split; [reflexivity | split]); [now exists [] | ].
      intros l [<- | []]; apply Hnil.
    + intros c. simpl. destruct (char_eqb c LF) eqn:E.
      * exists [], [[]]; (split; [reflexivity | split]); [now exists [c] |].
        intros l [<- | [<- | []]]; apply Hnil.
      * exists [c], []; (split; [reflexivity | split]); [now exists [] |].
        intros l [<- | []]. split; [apply infix_refl|].
        apply char_eqb_neq in E. intros [-> | []]. now apply E.
  - split; [apply IHdu|].
    intros c.
    change (split_lines (c :: d :: u)) with
      (if char_eqb c LF then [] :: split_lines (d :: u)
       else if char_eqb c CR && char_eqb d LF then [] :: split_lines u
            else match split_lines (d :: u) with
                 | l :: ls => (c :: l) :: ls
                 | [] => [[c]]
                 end).
    destruct (char_eqb c LF) eqn:E.
    + destruct (IHdu d) as [h [t [Hs [_ Hl]]]].
      exists [], (split_lines (d :: u)); (split; [reflexivity | split]); [now exists (c :: d :: u) |].
      intros l [<- | Hin]; [apply Hnil|].
      rewrite Hs in Hin. destruct (Hl l Hin) as [Hi Hn].
      split; [now apply infix_cons | exact Hn].
    + destruct (char_eqb c CR && char_eqb d LF).
      * destruct IHu as [h [t [Hs [_ Hl]]]].
        exists [], (split_lines u); (split; [reflexivity | split]); [now exists (c :: d :: u) |].
        intros l [<- | Hin]; [apply Hnil|].
        rewrite Hs in Hin. destruct (Hl l Hin) as [Hi Hn].
        split; [now apply infix_cons, infix_cons | exact Hn].
      * destruct (IHdu d) as [h [t [Hs [Hp Hl]]]]. rewrite Hs.
        exists (c :: h), t; (split; [reflexivity | split]); [now apply prefix_cons |].
        intros l [<- | Hin].
        -- split; [now apply prefix_infix, prefix_cons|].
           apply char_eqb_neq in E.
           intros [Hc | Hin]; [now apply E|].
           now apply (proj2 (Hl h (or_introl eq_refl))).
        -- destruct (Hl l (or_intror Hin)) as [Hi Hn].
           split; [now apply infix_cons | exact Hn].
Qed.

Lemma split_lines_line (u l : str) :
  In l (split_lines u) -> infix l u /\ ~ In LF l.
Proof.
  destruct (split_lines_shape u) as [[h [t [Hs [_ Hl]]]] _].
  rewrite Hs. apply Hl.
Qed.

Lemma filter_noise (ls : list str) :
  filter (fun line => negb (test re_more_than_5_min line))
    (filter (fun line => negb (test re_no_reservation line)) ls)
  = filter (fun line => negb (is_noise line)) ls.
Proof.
  induction ls as [|l ls IH]; simpl; [reflexivity|].
  unfold is_noise at 1.
  destruct (test re_no_reservation l); simpl; [exact IH|].
  destruct (test re_more_than_5_min l); simpl; [exact IH | now f_equal].
Qed.

Lemma stripAnnoyingLines_stages (text : str) :
  stripAnnoyingLines text
  = trim (collapse_newlines
            (join [LF] (filter (fun line => negb (is_noise line))
                          (split_lines text)))).
Proof. unfold stripAnnoyingLines. now rewrite filter_noise. Qed.

(** No stretch without line feed of the cleaned text holds a phrase. *)
Lemma stripAnnoyingLines_stretch (text a : str) :
  ~ In LF a -> infix a (stripAnnoyingLines text) -> is_noise a = false.
Proof.
  intros Ha Hi. rewrite stripAnnoyingLines_stages in Hi.
  destruct (trim_infix
              (collapse_newlines
                 (join [LF] (filter (fun line => negb (is_noise line))
                               (split_lines text))))) as [p [q Hq]].
  assert (Hc : infix a
                 (collapse_newlines
                    (join [LF] (filter (fun line => negb (is_noise line))
                                  (split_lines text))))).
  { eapply infix_trans; [exact Hi | now exists p, q]. }
  rewrite collapse_newlines_squeeze in Hc.
  apply squeeze_infix in Hc; [|exact Ha].
  apply infix_join_lf in Hc as [-> | [l [Hin Hl]]]; [reflexivity | | exact Ha].
  apply filter_In in Hin as [_ Hn]. apply negb_true_iff in Hn.
  eapply is_noise_infix; eauto.
Qed.

(** ** Letter case *)

Ltac decide_comparisons :=
  repeat match goal with
    | |- context [(?a =? ?b)%N] =>
        replace (a =? b)%N with false by (symmetry; apply N.eqb_neq; lia)
    | |- context [(?a <=? ?b)%N] =>
        first [ replace (a <=? b)%N with false by (symmetry; apply N.leb_gt; lia)
              | replace (a <=? b)%N with true by (symmetry; apply N.leb_le; lia) ]
    end.

Lemma canonicalize_idem (x : char) : canonicalize (canonicalize x) = canonicalize x.
Proof.
  unfold canonicalize.
  destruct ((97 <=? x) && (x <=? 122))%N eqn:E; [|now rewrite E].
  apply andb_true_iff in E as [E1 E2].
  apply N.leb_le in E1, E2. decide_comparisons. reflexivity.
Qed.

Lemma is_space_canonicalize (x : char) : is_space (canonicalize x) = is_space x.
Proof.
  unfold canonicalize.
  destruct ((97 <=? x) && (x <=? 122))%N eqn:E; [|reflexivity].
  apply andb_true_iff in E as [E1 E2].
  apply N.leb_le in E1, E2. unfold is_space. decide_comparisons. reflexivity.
Qed.

Lemma ignores_case_lit_ci (s : str) : ignores_case (lit_ci s).
Proof.
  induction s as [|c s IH]; simpl; [exact I|].
  split; [|exact IH]. intros x. now rewrite canonicalize_idem.
Qed.

Lemma ignores_case_cat (a b : regex) :
  ignores_case a -> ignores_case b -> ignores_case (cat a b).
Proof. intros Ha Hb. destruct a, b; simpl in *; tauto. Qed.

Lemma ignores_case_alt (a b : regex) :
  ignores_case a -> ignores_case b -> ignores_case (alt a b).
Proof. intros Ha Hb. destruct a, b; simpl in *; tauto. Qed.

Lemma ignores_case_deriv (x : char) (r : regex) :
  ignores_case r ->
  ignores_case (deriv x r) /\ deriv (canonicalize x) r = deriv x r.
Proof.
  induction r as [| |p|a IHa b IHb|a IHa b IHb|a IHa]; simpl; intros Hr.
  - auto.
  - auto.
  - rewrite Hr. destruct (p x); simpl; auto.
  - destruct Hr as [Ha Hb].
    destruct (IHa Ha) as [Ia Ea], (IHb Hb) as [Ib Eb]. rewrite Ea, Eb.
    split; [|reflexivity].
    destruct (nullable a); auto using ignores_case_cat, ignores_case_alt.
  - destruct Hr as [Ha Hb].
    destruct (IHa Ha) as [Ia Ea], (IHb Hb) as [Ib Eb]. rewrite Ea, Eb.
    auto using ignores_case_alt.
  - destruct (IHa Hr) as [Ia Ea]. rewrite Ea.
    split; [|reflexivity]. now apply ignores_case_cat.
Qed.

Lemma matches_prefix_case (s : str) : forall r : regex,
  ignores_case r ->
  matches_prefix r (map canonicalize s) = matches_prefix r s.
Proof.
  induction s as [|x s IH]; intros r Hr; simpl; [reflexivity|].
  destruct (ignores_case_deriv x r Hr) as [Hd He].
  rewrite He, IH by exact Hd. reflexivity.
Qed.

Lemma test_case (r : regex) (s : str) :
  ignores_case r -> test r (map canonicalize s) = test r s.
Proof.
  intros Hr. induction s as [|x s IH]; [reflexivity|].
  change (test r (map canonicalize (x :: s)))
    with (matches_prefix r (map canonicalize (x :: s))
          || test r (map canonicalize s)).
  change (test r (x :: s)) with (matches_prefix r (x :: s) || test r s).
  now rewrite IH, matches_prefix_case.
Qed.

Lemma ignores_case_more_than : ignores_case re_more_than_5_min.
Proof.
  unfold re_more_than_5_min, plus, ws. simpl.
  repeat split; intros x;
    first [ apply is_space_canonicalize | now rewrite canonicalize_idem ].
Qed.

(** The filters do not tell letter case. *)
Lemma is_noise_case (line : str) :
  is_noise (map canonicalize line) = is_noise line.
Proof.
  unfold is_noise.
  rewrite test_case by apply ignores_case_lit_ci.
  now rewrite test_case by apply ignores_case_more_than.
Qed.

(** A line that holds a phrase, in whatever letter case, is noise. *)
Lemma phrase_is_noise (line : str) :
  infix (js "NO RESERVATION, NO CLASS.") (map canonicalize line) \/
  infix (js "MORE THAN 5 MIN") (map canonicalize line) ->
  is_noise line = true.
Proof.
  intros Hp. rewrite <- is_noise_case. unfold is_noise.
  apply orb_true_iff. destruct Hp as [Hp | Hp]; [left | right];
    eapply test_infix; eauto; vm_compute; reflexivity.
Qed.

(* ================================================================== *)
(** * BlockParser                                                      *)
(* ================================================================== *)

Lemma call_trim_nullish (lines : list str) (i j : nat) :
  call_trim (nullish (nth_error lines i) (nullish (nth_error lines j) (Some [])))
  = Ok (trim (line_or lines i j)).
Proof.
  unfold line_or. destruct (nth_error lines i); [reflexivity|].
  destruct (nth_error lines j); reflexivity.
Qed.

Lemma header_at_inv (lines : list str) (i : nat) (d : str) :
  header_at lines i d ->
  i < length lines /\
  match_date_header (opt_trim (nth_error lines i)) = Some d /\
  test_date_header (opt_trim (nth_error lines i)) = true.
Proof.
  intros [h [Hn Hm]]. split.
  - apply nth_error_Some. congruence.
  - rewrite Hn. simpl. split; [exact Hm|].
    unfold test_date_header. simpl in Hm.
    destruct (matches_whole re_date_header (trim h)); [reflexivity | discriminate].
Qed.

Section Parser.

Variable lines : list str.
Variable target : str.

Lemma body_loop_step (fuel i : nat) (acc : list str) :
  body_loop (S fuel) lines i acc
  = if i <? length lines then
      if test_date_header (opt_trim (nth_error lines i)) then Ok (i, acc)
      else body_loop fuel lines (S i) (acc ++ [nth i lines []])
    else Ok (i, acc).
Proof. reflexivity. Qed.

Lemma parse_loop_step (fuel i : nat) (acc : list entry) :
  parse_loop (S fuel) lines target i acc
  = if i <? length lines then
      match match_date_header (opt_trim (nth_error lines i)) with
      | None => parse_loop fuel lines target (S i) acc
      | Some d =>
          try! (i', b) <- body_loop (S (length lines)) lines (i + 4) [];
          parse_loop fuel lines target i'
            (acc ++ emit target d (field (line_or lines (i + 2) (i + 1)))
                      (field (line_or lines (i + 3) (i + 2)))
                      (stripAnnoyingLines (join [LF] b)))
      end
    else Ok acc.
Proof.
  cbn [parse_loop]. destruct (i <? length lines); [|reflexivity].
  destruct (match_date_header (opt_trim (nth_error lines i))); [|reflexivity].
  rewrite !call_trim_nullish. cbn [rbind].
  destruct (body_loop (S (length lines)) lines (i + 4) []) as [[i' b]|e];
    [|reflexivity].
  cbn [rbind]. unfold emit, field.
  destruct (str_eqb s target); [reflexivity | now rewrite app_nil_r].
Qed.

(** The inner loop ends, at or after the line it started from. *)
Lemma body_loop_ok (fuel : nat) : forall (i : nat) (acc : list str),
  length lines - i < fuel ->
  exists i' b, body_loop fuel lines i acc = Ok (i', b) /\ i <= i'.
Proof.
  induction fuel as [|fuel IH]; intros i acc Hf; [lia|].
  rewrite body_loop_step.
  destruct (i <? length lines) eqn:E; [|now exists i, acc].
  apply Nat.ltb_lt in E.
  destruct (test_date_header (opt_trim (nth_error lines i))); [now exists i, acc|].
  destruct (IH (S i) (acc ++ [nth i lines []])) as [i' [b [Hb Hi]]]; [lia|].
  exists i', b. split; [exact Hb | lia].
Qed.

(** The outer loop ends: [parseWodPage] raises nothing. *)
Lemma parse_loop_ok (fuel : nat) : forall (i : nat) (acc : list entry),
  length lines - i < fuel ->
  exists entries, parse_loop fuel lines target i acc = Ok entries.
Proof.
  induction fuel as [|fuel IH]; intros i acc Hf; [lia|].
  rewrite parse_loop_step.
  destruct (i <? length lines) eqn:E; [|now exists acc].
  apply Nat.ltb_lt in E.
  destruct (match_date_header (opt_trim (nth_error lines i))) as [d|].
  - destruct (@body_loop_ok (S (length lines)) (i + 4) [])
      as [i' [b [Hb Hi]]]; [lia|].
    rewrite Hb. cbn [rbind]. apply IH. lia.
  - apply IH. lia.
Qed.

Lemma parse_loop_acc (fuel : nat) : forall (i : nat) (acc : list entry),
  parse_loop fuel lines target i acc
  = rmap (app acc) (parse_loop fuel lines target i []).
Proof.
  induction fuel as [|fuel IH]; intros i acc; [reflexivity|].
  rewrite !parse_loop_step.
  destruct (i <? length lines); [|simpl; now rewrite app_nil_r].
  destruct (match_date_header (opt_trim (nth_error lines i))) as [d|];
    [|apply IH].
  destruct (body_loop (S (length lines)) lines (i + 4) []) as [[i' b]|e];
    [|reflexivity].
  cbn [rbind]. rewrite IH. rewrite (IH i' ([] ++ _)).
  destruct (parse_loop fuel lines target i' []); simpl; [|reflexivity].
  now rewrite app_assoc.
Qed.

Lemma parse_loop_fuel (f1 : nat) : forall (f2 i : nat) (acc : list entry),
  length lines - i < f1 -> length lines - i < f2 ->
  parse_loop f1 lines target i acc = parse_loop f2 lines target i acc.
Proof.
  induction f1 as [|f1 IH]; intros f2 i acc H1 H2; [lia|].
  destruct f2 as [|f2]; [lia|].
  rewrite !parse_loop_step.
  destruct (i <? length lines) eqn:E; [|reflexivity].
  apply Nat.ltb_lt in E.
  destruct (match_date_header (opt_trim (nth_error lines i))) as [d|].
  - destruct (@body_loop_ok (S (length lines)) (i + 4) [])
      as [i' [b [Hb Hi]]]; [lia|].
    rewrite Hb. cbn [rbind]. apply IH; lia.
  - apply IH; lia.
Qed.

(** A line that is no date header is passed over. *)
Lemma parse_from_skip (i : nat) :
  i < length lines ->
  match_date_header (opt_trim (nth_error lines i)) = None ->
  parse_from lines target i = parse_from lines target (S i).
Proof.
  intros Hi Hm. unfold parse_from. rewrite parse_loop_step.
  apply Nat.ltb_lt in Hi. rewrite Hi, Hm.
  apply Nat.ltb_lt in Hi. apply parse_loop_fuel; lia.
Qed.

(** A date header opens a record: its fields come from the lines after
    it, its body runs to where the inner loop stops, at least four lines
    further, and the scan resumes there. *)
Lemma parse_from_header (i : nat) (d : str) :
  header_at lines i d ->
  exists i' b,
    body_loop (S (length lines)) lines (i + 4) [] = Ok (i', b) /\
    i + 4 <= i' /\
    parse_from lines target i
    = rmap (app (emit target d (field (line_or lines (i + 2) (i + 1)))
                   (field (line_or lines (i + 3) (i + 2)))
                   (stripAnnoyingLines (join [LF] b))))
        (parse_from lines target i').
Proof.
  intros Hh. apply header_at_inv in Hh as [Hi [Hm _]].
  destruct (@body_loop_ok (S (length lines)) (i + 4) [])
    as [i' [b [Hb Hle]]]; [lia|].
  exists i', b. split; [exact Hb|]. split; [exact Hle|].
  unfold parse_from. rewrite parse_loop_step.
  apply Nat.ltb_lt in Hi. rewrite Hi, Hm, Hb. cbn [rbind].
  apply Nat.ltb_lt in Hi.
  rewrite parse_loop_acc, app_nil_l. f_equal. apply parse_loop_fuel; lia.
Qed.

End Parser.

Lemma line_or_present (lines : list str) (i j : nat) :
  i < length lines -> line_or lines i j = nth i lines [].
Proof.
  intros Hi. unfold line_or. now rewrite (nth_error_nth' lines [] Hi).
Qed.

Lemma line_or_fallback (lines : list str) (i j : nat) :
  length lines <= i -> j < length lines -> line_or lines i j = nth j lines [].
Proof.
  intros Hi Hj. unfold line_or.
  rewrite (proj2 (nth_error_None lines i) Hi).
  now rewrite (nth_error_nth' lines [] Hj).
Qed.

Lemma line_or_absent (lines : list str) (i j : nat) :
  length lines <= i -> length lines <= j -> line_or lines i j = [].
Proof.
  intros Hi Hj. unfold line_or.
  rewrite (proj2 (nth_error_None lines i) Hi).
  now rewrite (proj2 (nth_error_None lines j) Hj).
Qed.

Lemma parse_from_end (lines : list str) (target : str) (i : nat) :
  length lines <= i -> parse_from lines target i = Ok [].
Proof.
  intros Hi. unfold parse_from. rewrite parse_loop_step.
  apply Nat.ltb_ge in Hi. now rewrite Hi.
Qed.

(** A record cut short by the end of the input: its body is empty and
    nothing follows it. *)
Lemma parse_from_last_header (lines : list str) (target : str) (i : nat) (d : str) :
  header_at lines i d -> length lines <= i + 4 ->
  parse_from lines target i
  = Ok (emit target d (field (line_or lines (i + 2) (i + 1)))
          (field (line_or lines (i + 3) (i + 2))) []).
Proof.
  intros Hh Hlen.
  destruct (parse_from_header target Hh) as [i' [b [Hb [Hle ->]]]].
  rewrite body_loop_step in Hb.
  apply Nat.ltb_ge in Hlen. rewrite Hlen in Hb. injection Hb as <- <-.
  apply Nat.ltb_ge in Hlen. rewrite parse_from_end by exact Hlen.
  simpl. now rewrite app_nil_r.
Qed.

(** C8: [parseWodPage] raises on no input; and where the input ends
    before the lines a date header expects two and three lines further,
    the fields fall back to the line before, or to the empty string when
    there is none, and the entry is produced all the same. *)
Theorem parseWodPage_never_raises (markdown target : str) :
  (exists entries, parseWodPage markdown target = Ok entries) /\
  (forall (lines : list str) (i : nat) (d : str),
     header_at lines i d ->
     (length lines = i + 1 ->
      parse_from lines target i = Ok (emit target d [] [] [])) /\
     (length lines = i + 2 ->
      parse_from lines target i
      = Ok (emit target d (field (nth (i + 1) lines [])) [] [])) /\
     (length lines = i + 3 ->
      parse_from lines target i
      = Ok (emit target d (field (nth (i + 2) lines []))
              (field (nth (i + 2) lines [])) []))).
Proof.
  split.
  - unfold parseWodPage, parse_lines. apply parse_loop_ok. lia.
  - intros lines i d Hh. repeat split; intros Hlen;
      rewrite (parse_from_last_header target Hh) by lia.
    + now rewrite !line_or_absent by lia.
    + rewrite line_or_fallback, line_or_absent by lia. reflexivity.
    + rewrite line_or_present, line_or_fallback by lia. reflexivity.
Qed.

Lemma parseWodPage_never_raises_witness :
  header_at (split_lines (js "#### 01/02/2026
Gym A")) 0 (js "01/02/2026") /\
  parseWodPage (js "#### 01/02/2026
Gym A") (js "01/02/2026")
  = Ok [mkEntry (js "01/02/2026") (js "Gym A") [] []].
Proof.
  assert (Hh : header_at (split_lines (js "#### 01/02/2026
Gym A")) 0 (js "01/02/2026")).
  { exists (js "#### 01/02/2026"). split; reflexivity. }
  split; [exact Hh|].
  exact (proj1 (proj2 (proj2 (parseWodPage_never_raises [] (js "01/02/2026"))
                         _ _ _ Hh)) eq_refl).
Defined.

(** C4, as the specification states it, fails: of two date headers on
    adjacent lines the second is taken as a header line of the first, so
    one entry comes out instead of two, and its body is not empty. *)
Lemma adjacent_date_headers_one_entry :
  parseWodPage (js "#### 01/02/2026
#### 01/02/2026
#### Gym B
#### Open Gym
Free lift") (js "01/02/2026")
  = Ok [mkEntry (js "01/02/2026") (js "Gym B") (js "Open Gym") (js "Free lift")].
Proof. vm_compute. reflexivity. Qed.

(** C4 (amended): whatever follows a date header, the three lines after
    it are taken as its header lines and the scan resumes four lines or
    more after it, so that a date header among those three lines opens no
    record; and when the next date header stands right after them, four
    lines after the first, the entry of the first has an empty body and
    the next header opens a record of its own. *)
Theorem empty_body_before_next_header
    (lines : list str) (target : str) (i : nat) (d : str) :
  header_at lines i d ->
  (exists i' b,
     i + 4 <= i' /\
     parse_from lines target i
     = rmap (app (emit target d (field (line_or lines (i + 2) (i + 1)))
                    (field (line_or lines (i + 3) (i + 2)))
                    (stripAnnoyingLines (join [LF] b))))
         (parse_from lines target i')) /\
  (forall d', header_at lines (i + 4) d' ->
     exists i' b rest,
       i + 8 <= i' /\
       parse_from lines target i' = Ok rest /\
       parse_from lines target i
       = Ok (emit target d (field (nth (i + 2) lines []))
               (field (nth (i + 3) lines [])) []
             ++ emit target d' (field (line_or lines (i + 6) (i + 5)))
                  (field (line_or lines (i + 7) (i + 6)))
                  (stripAnnoyingLines (join [LF] b))
             ++ rest)).
Proof.
  intros Hh.
  destruct (parse_from_header target Hh) as [i1 [b1 [Hb1 [Hle1 E1]]]].
  split; [exists i1, b1; split; [exact Hle1 | exact E1]|].
  intros d' Hh'.
  destruct (header_at_inv Hh') as [Hlen [_ Ht]].
  rewrite !line_or_present in E1 by lia.
  rewrite body_loop_step in Hb1.
  apply Nat.ltb_lt in Hlen. rewrite Hlen, Ht in Hb1. injection Hb1 as <- <-.
  destruct (parse_from_header target Hh') as [i2 [b2 [Hb2 [Hle2 E2]]]].
  destruct (@parse_loop_ok lines target (S (length lines)) i2 [])
    as [rest Hrest]; [lia|].
  fold (parse_from lines target i2) in Hrest.
  exists i2, b2, rest. split; [lia|]. split; [exact Hrest|].
  rewrite E1, E2, Hrest. simpl rmap.
  replace (i + 4 + 2) with (i + 6) by lia.
  replace (i + 4 + 1) with (i + 5) by lia.
  replace (i + 4 + 3) with (i + 7) by lia.
  reflexivity.
Qed.

Lemma empty_body_before_next_header_witness :
  exists rest,
    parse_from (split_lines (js "#### 01/02/2026

#### Gym A
#### CrossFit
#### 02/02/2026

#### Gym B
#### Open Gym
Free lift")) (js "01/02/2026") 0
    = Ok (mkEntry (js "01/02/2026") (js "Gym A") (js "CrossFit") [] :: rest).
Proof.
  assert (Hh : header_at (split_lines (js "#### 01/02/2026

#### Gym A
#### CrossFit
#### 02/02/2026

#### Gym B
#### Open Gym
Free lift")) 0 (js "01/02/2026")).
  { exists (js "#### 01/02/2026"). split; reflexivity. }
  destruct (proj2 (empty_body_before_next_header (js "01/02/2026") Hh)
              (js "02/02/2026"))
    as [i' [b [rest [_ [_ E]]]]].
  - exists (js "#### 02/02/2026"). split; reflexivity.
  - eexists. exact E.
Defined.

(** The input of the end-to-end scenario of the specification: without a
    line between the date and the location, the fields shift by one. *)
Example parse_demo :
  parseWodPage
    (js "#### 01/02/2026
#### Gym A
#### CrossFit
Warm up
5 rounds

#### 01/02/2026
#### Gym B
#### Open Gym
Free lift
") (js "01/02/2026")
  = Ok [ mkEntry (js "01/02/2026") (js "CrossFit") (js "Warm up") (js "5 rounds");
         mkEntry (js "01/02/2026") (js "Open Gym") (js "Free lift") [] ].
Proof. vm_compute. reflexivity. Qed.

(* ================================================================== *)
(** * SyncEngine                                                       *)
(* ================================================================== *)

Lemma existing_keys_In (ps : list page) (k : str) :
  In k (existing_keys ps) <-> exists p, In p ps /\ page_key p = k.
Proof.
  unfold existing_keys.
  assert (G : forall (acc : ListSet.set str),
             In k (fold_left
                     (fun existing p => ListSet.set_add str_eq_dec (page_key p) existing)
                     ps acc)
             <-> In k acc \/ exists p, In p ps /\ page_key p = k).
  { induction ps as [|p ps IH]; intros acc; simpl.
    - split; [now left | intros [Hk | [p [[] _]]]; exact Hk].
    - rewrite IH. split.
      + intros [Hk | [q [Hq Hk]]].
        * apply ListSet.set_add_iff in Hk as [Hk | Hk]; [|now left].
          right. exists p. split; [now left | now symmetry].
        * right. exists q. split; [now right | exact Hk].
      + intros [Hk | [q [[<- | Hq] Hk]]].
        * left. apply ListSet.set_add_iff. now right.
        * left. apply ListSet.set_add_iff. left. now symmetry.
        * right. exists q. split; assumption. }
  rewrite G. simpl. split; [intros [[] | Hk]; exact Hk | now right].
Qed.

Section Sync.

Context {W : Type} `{Notion W}.

(** A request is logged once, whatever its outcome. *)
Lemma notionReq_run (r : request) (w : W) (log : list request) :
  notionReq r (w, log) = (outcome (fst (serve r w)), (snd (serve r w), log ++ [r])).
Proof.
  unfold notionReq. destruct (serve r w) as [[json | status] w']; reflexivity.
Qed.

Lemma getChildDatabaseId_state (pageId : str) (w : W) (log : list request) :
  snd (getChildDatabaseId pageId (w, log))
  = (snd (serve (GetBlockChildren pageId 100 None) w),
     log ++ [GetBlockChildren pageId 100 None]).
Proof.
  unfold getChildDatabaseId, bind. rewrite notionReq_run.
  destruct (fst (serve (GetBlockChildren pageId 100 None) w)) as [data | status];
    simpl; [|reflexivity].
  destruct (results data) as [bs|]; [|reflexivity].
  destruct (find _ bs); reflexivity.
Qed.

Lemma queryExistingForDate_run (databaseId isoDate : str) (w : W)
    (log : list request) :
  queryExistingForDate databaseId isoDate (w, log)
  = (rmap (fun res =>
             existing_keys
               (match query_results res with Some ps => ps | None => [] end))
       (outcome (fst (serve (QueryDatabase databaseId 100 isoDate None) w))),
     (snd (serve (QueryDatabase databaseId 100 isoDate None) w),
      log ++ [QueryDatabase databaseId 100 isoDate None])).
Proof.
  unfold queryExistingForDate, bind. rewrite notionReq_run.
  destruct (fst (serve (QueryDatabase databaseId 100 isoDate None) w));
    reflexivity.
Qed.

(** The loop of [main]: every entry counts once, as created when its key
    is not in the set and as skipped when it is, and the creates are
    issued in the order of the entries. *)
Lemma sync_loop_spec (databaseId isoDate : str) (keys : ListSet.set str)
    (entries : list entry) :
  forall (c s : nat) (w : W) (log : list request) c' s' w' log',
  sync_loop databaseId isoDate keys entries c s (w, log) = (Ok (c', s'), (w', log')) ->
  c' = c + length (filter (is_new keys) entries) /\
  s' = s + length (filter (fun e => negb (is_new keys e)) entries) /\
  log' = log ++ map (create_request databaseId isoDate) (filter (is_new keys) entries).
Proof.
  induction entries as [|e rest IH]; intros c s w log c' s' w' log' Hrun.
  - injection Hrun as <- <- <- <-. simpl. rewrite app_nil_r.
    repeat split; lia.
  - cbn [sync_loop] in Hrun.
    assert (Em : ListSet.set_mem str_eq_dec (entry_key e) keys
                 = negb (is_new keys e))
      by (unfold is_new; now rewrite negb_involutive).
    rewrite Em in Hrun. cbn [filter].
    destruct (is_new keys e); cbn [negb] in Hrun |- *.
    + unfold bind, createWodRow in Hrun. rewrite notionReq_run in Hrun.
      destruct (outcome (fst (serve (CreatePage databaseId (wod_row isoDate e)) w)));
        [|discriminate].
      apply IH in Hrun as (-> & -> & ->).
      cbn [map length]. unfold create_request at 3.
      rewrite <- app_assoc. repeat split; simpl; lia.
    + apply IH in Hrun as (-> & -> & ->). cbn [length].
      repeat split; lia.
Qed.

(** What a run that completes has done. *)
Lemma main_completed (e : env) (w : W) (log : list request)
    (s : summary) (w' : W) (log' : list request) :
  main e (w, log) = (Ok s, (w', log')) ->
  exists entries databaseId res,
    let keys :=
      existing_keys (match query_results res with Some ps => ps | None => [] end) in
    configured e /\
    parseWodPage (show (WOD_MARKDOWN e)) (ddmmyyyyFromISO (today e)) = Ok entries /\
    fst (serve (QueryDatabase databaseId 100 (today e) None)
           (snd (serve (GetBlockChildren (show (NOTION_PAGE_ID e)) 100 None) w)))
    = HttpOk res /\
    created s = length (filter (is_new keys) entries) /\
    skipped s = length (filter (fun x => negb (is_new keys x)) entries) /\
    total s = length entries /\
    log' = log
           ++ GetBlockChildren (show (NOTION_PAGE_ID e)) 100 None
           :: QueryDatabase databaseId 100 (today e) None
           :: map (create_request databaseId (today e)) (filter (is_new keys) entries).
Proof.
  unfold main, configured.
  destruct (falsy (NOTION_TOKEN e)); [discriminate|].
  destruct (falsy (NOTION_PAGE_ID e)); [discriminate|].
  destruct (falsy (WOD_MARKDOWN e)); [discriminate|].
  unfold bind at 1. unfold lift.
  destruct (parseWodPage (show (WOD_MARKDOWN e)) (ddmmyyyyFromISO (today e)))
    as [entries | err]; [|discriminate].
  destruct (is_nil entries); [discriminate|].
  unfold bind at 1.
  pose proof (getChildDatabaseId_state (show (NOTION_PAGE_ID e)) w log) as Hg.
  destruct (getChildDatabaseId (show (NOTION_PAGE_ID e)) (w, log))
    as [[databaseId | err] st1]; [|discriminate].
  simpl in Hg. subst st1.
  unfold bind at 1. rewrite queryExistingForDate_run.
  destruct (fst (serve (QueryDatabase databaseId 100 (today e) None) _))
    as [res | status] eqn:Hres; [|discriminate].
  cbn [outcome rmap]. unfold bind.
  match goal with
  | |- context [sync_loop ?d ?i ?k ?es 0 0 ?st] =>
      destruct (sync_loop d i k es 0 0 st) as [[[c sk] | err] [w2 log2]] eqn:Hloop;
      [|discriminate]
  end.
  intros Hret. injection Hret as <- <- <-.
  apply sync_loop_spec in Hloop as (-> & -> & ->).
  exists entries, databaseId, res. cbv zeta. simpl.
  repeat split; try reflexivity; try assumption.
  rewrite <- !app_assoc. reflexivity.
Qed.

End Sync.

Lemma filter_partition_length {A} (f : A -> bool) (l : list A) :
  length (filter f l) + length (filter (fun x => negb (f x)) l) = length l.
Proof.
  induction l as [|x l IH]; simpl; [reflexivity|].
  destruct (f x); simpl; lia.
Qed.


(** C7: when no parsed entry is of the target date the run raises at
    once: the store and the request log are as they were, so no container
    discovery, query or create was issued; and with the configuration
    present the error is the one that names the date. *)
Theorem main_fails_without_entries {W : Type} `{Notion W}
    (e : env) (w : W) (log : list request) :
  parseWodPage (show (WOD_MARKDOWN e)) (ddmmyyyyFromISO (today e)) = Ok [] ->
  (exists err, main e (w, log) = (Throw err, (w, log))) /\
  (configured e ->
   main e (w, log)
   = (Throw (NoEntriesFound (ddmmyyyyFromISO (today e))), (w, log)) /\
   error_message (NoEntriesFound (ddmmyyyyFromISO (today e)))
   = js "No entries found for " ++ ddmmyyyyFromISO (today e) ++ js ".").
Proof.
  intros Hp. unfold main, configured.
  destruct (falsy (NOTION_TOKEN e)).
  { split; [now eexists | intros [Hc _]; discriminate]. }
  destruct (falsy (NOTION_PAGE_ID e)).
  { split; [now eexists | intros [_ [Hc _]]; discriminate]. }
  destruct (falsy (WOD_MARKDOWN e)).
  { split; [now eexists | intros [_ [_ Hc]]; discriminate]. }
  unfold bind, lift. rewrite Hp. simpl.
  split; [now eexists | intros _; split; reflexivity].
Qed.

Lemma main_fails_without_entries_witness :
  run (main (sample_env other_day)) fresh_store
  = (Throw (NoEntriesFound (js "01/02/2026")), (fresh_store, [])).
Proof.
  refine (proj1 (proj2 (@main_fails_without_entries store store_notion
                          (sample_env other_day) fresh_store [] _) _)).
  - vm_compute. reflexivity.
  - repeat split.
Defined.

(** C10: a run that completes reports [created + skipped] equal to the
    number of entries parsed for the target date: every entry counts in
    exactly one of the two, as created when its key is not among the
    existing keys and as skipped when it is. *)
Theorem created_plus_skipped_is_total {W : Type} `{Notion W}
    (e : env) (w : W) (log : list request)
    (s : summary) (w' : W) (log' : list request) :
  main e (w, log) = (Ok s, (w', log')) ->
  exists entries keys,
    parseWodPage (show (WOD_MARKDOWN e)) (ddmmyyyyFromISO (today e)) = Ok entries /\
    created s = length (filter (is_new keys) entries) /\
    skipped s = length (filter (fun x => negb (is_new keys x)) entries) /\
    created s + skipped s = length entries /\
    total s = length entries.
Proof.
  intros Hrun.
  apply main_completed in Hrun
    as (entries & db & res & _ & Hp & _ & Hc & Hs & Ht & _).
  eexists entries, _. split; [exact Hp|].
  split; [exact Hc|]. split; [exact Hs|]. split; [|exact Ht].
  rewrite Hc, Hs. apply filter_partition_length.
Qed.

Lemma created_plus_skipped_is_total_witness :
  exists s st,
    run (main (sample_env two_gyms)) fresh_store = (Ok s, st) /\
    created s + skipped s = 2.
Proof.
  destruct (run (main (sample_env two_gyms)) fresh_store)
    as [[s | err] [w' log']] eqn:Hrun; [|vm_compute in Hrun; discriminate].
  exists s, (w', log'). split; [reflexivity|].
  destruct (created_plus_skipped_is_total _ _ _ Hrun)
    as (entries & keys & Hp & _ & _ & Hsum & _).
  rewrite Hsum.
  assert (He : parseWodPage (show (WOD_MARKDOWN (sample_env two_gyms)))
                 (ddmmyyyyFromISO (today (sample_env two_gyms)))
               = Ok [mkEntry (js "01/02/2026") (js "Gym A") (js "CrossFit")
                       (js "Warm up
5 rounds");
                     mkEntry (js "01/02/2026") (js "Gym B") (js "Open Gym")
                       (js "Free lift")])
    by (vm_compute; reflexivity).
  rewrite He in Hp. injection Hp as <-. reflexivity.
Defined.


(** C9: [queryExistingForDate] issues one request, a query of page size
    100 that carries no cursor, whatever the response says of further
    pages; the set it returns holds the keys of the pages of that one
    response and no other.  Against a store that serves pages of the
    requested size, these are the keys of the first hundred matching
    rows. *)
Theorem query_reads_first_page_only {W : Type} `{Notion W}
    (databaseId isoDate : str) (w : W) (log : list request) :
  (snd (queryExistingForDate databaseId isoDate (w, log))
   = (snd (serve (QueryDatabase databaseId 100 isoDate None) w),
      log ++ [QueryDatabase databaseId 100 isoDate None])) /\
  (forall res,
     fst (serve (QueryDatabase databaseId 100 isoDate None) w) = HttpOk res ->
     exists keys,
       fst (queryExistingForDate databaseId isoDate (w, log)) = Ok keys /\
       forall k, In k keys <->
                 exists p, In p (match query_results res with
                                 | Some ps => ps
                                 | None => []
                                 end) /\ page_key p = k) /\
  (forall (ws : store) (slog : list request),
     exists keys,
       fst (queryExistingForDate databaseId isoDate (ws, slog)) = Ok keys /\
       forall k, In k keys <->
                 exists p, In p (firstn 100 (matching isoDate ws)) /\ page_key p = k).
Proof.
  split; [now rewrite queryExistingForDate_run|].
  split.
  - intros res Hres. rewrite queryExistingForDate_run, Hres. cbn [outcome rmap fst].
    eexists. split; [reflexivity|]. apply existing_keys_In.
  - intros ws slog. rewrite queryExistingForDate_run. simpl.
    eexists. split; [reflexivity|]. intros k. apply existing_keys_In.
Qed.

Lemma query_reads_first_page_only_witness :
  exists keys,
    fst (run (queryExistingForDate (js "db-1") (js "2026-02-01")) crowded_database)
    = Ok keys /\
    In (js "Gym A__CrossFit") keys /\
    ~ In (js "Gym B__Open Gym") keys.
Proof.
  destruct (proj2 (proj2 (@query_reads_first_page_only store store_notion
                            (js "db-1") (js "2026-02-01") crowded_database []))
              crowded_database [])
    as [keys [Hk Hin]].
  assert (E : fst (run (queryExistingForDate (js "db-1") (js "2026-02-01"))
                     crowded_database)
              = Ok [js "Gym A__CrossFit"]) by (vm_compute; reflexivity).
  exists keys. split; [exact Hk|].
  unfold run in E. rewrite E in Hk. injection Hk as <-.
  split; [now left|].
  intros [Hx | []]. vm_compute in Hx. discriminate.
Defined.

(** C1 at an entry without program: the row is stored under the type
    [WOD], the key derived from it ends in [WOD], the key of the entry
    ends in nothing, and the second run creates the row again. *)
Lemma empty_program_created_again :
  let e := mkEntry (js "01/02/2026") (js "Gym A") [] (js "Warm up") in
  let first := run (main (sample_env no_program)) fresh_store in
  let second := run (main (sample_env no_program)) (fst (snd first)) in
  parseWodPage no_program (js "01/02/2026") = Ok [e] /\
  entry_key e = js "Gym A__" /\
  page_key (page_of_row (wod_row (js "2026-02-01") e)) = js "Gym A__WOD" /\
  fst first
  = Ok {| sum_isoDate := js "2026-02-01"; created := 1; skipped := 0; total := 1 |} /\
  fst second
  = Ok {| sum_isoDate := js "2026-02-01"; created := 1; skipped := 0; total := 1 |} /\
  store_rows (fst (snd first)) = [wod_row (js "2026-02-01") e] /\
  store_rows (fst (snd second))
  = [wod_row (js "2026-02-01") e; wod_row (js "2026-02-01") e].
Proof. cbv zeta. repeat split; vm_compute; reflexivity. Qed.

(** The same two runs on entries that name their program: the second run
    skips both and stores nothing. *)
Example two_gyms_idempotent :
  let first := run (main (sample_env two_gyms)) fresh_store in
  let second := run (main (sample_env two_gyms)) (fst (snd first)) in
  fst first
  = Ok {| sum_isoDate := js "2026-02-01"; created := 2; skipped := 0; total := 2 |} /\
  fst second
  = Ok {| sum_isoDate := js "2026-02-01"; created := 0; skipped := 2; total := 2 |} /\
  fst (snd second) = fst (snd first).
Proof. cbv zeta. repeat split; vm_compute; reflexivity. Qed.

(* ================================================================== *)
(** * Listing the children of a page                                   *)
(* ================================================================== *)

Lemma visit_count (bs : list block) : forall acc : InspectPage.listing,
  InspectPage.n (fold_left InspectPage.visit bs acc)
  = InspectPage.n acc + length bs.
Proof.
  induction bs as [|b bs IH]; intros acc; simpl; [lia|].
  rewrite IH. simpl. lia.
Qed.

(** The diagnostic lister follows the cursor to the last page: with fuel
    for every page it visits all the children of the page, in order. *)
Lemma list_loop_complete (pageId : str) (w : store) (fuel : nat) :
  forall (c : option cursor) (acc : InspectPage.listing) (log : list request),
  0 < fuel -> length (store_children w) < offset_of c + fuel * 100 ->
  exists log',
    InspectPage.list_loop fuel pageId c acc (w, log)
    = (Ok (fold_left InspectPage.visit (skipn (offset_of c) (store_children w)) acc),
       (w, log')).
Proof.
  induction fuel as [|fuel IH]; intros c acc log Hpos Hf; [lia|].
  cbn [InspectPage.list_loop]. unfold bind, InspectPage.listChildren.
  rewrite notionReq_run. cbn [serve store_notion store_serve fst snd outcome].
  cbn [results has_more next_cursor].
  destruct (offset_of c + 100 <? length (store_children w)) eqn:E; cbn [negb].
  - apply Nat.ltb_lt in E.
    destruct (IH (Some (offset_of c + 100))
                (fold_left InspectPage.visit
                   (firstn 100 (skipn (offset_of c) (store_children w))) acc)
                (log ++ [GetBlockChildren pageId 100 c])) as [log' Hl].
    { simpl in Hf. lia. }
    { simpl in *. lia. }
    exists log'. rewrite Hl. f_equal. f_equal.
    rewrite <- fold_left_app. f_equal.
    cbn [offset_of]. rewrite Nat.add_comm, <- skipn_skipn.
    apply firstn_skipn.
  - apply Nat.ltb_ge in E. eexists. unfold ret. f_equal. f_equal. f_equal.
    apply firstn_all2. rewrite length_skipn. lia.
Qed.

(** C3 at a page whose database is its 101st child: [getChildDatabaseId]
    asks for one page of a hundred children, finds no database in it and
    raises, where the lister of [notion_inspect_page.mjs] asks for the
    second page and sees all 101 children. *)
Lemma database_after_first_page_not_found :
  In database_block (store_children crowded_page) /\
  run (getChildDatabaseId (js "page-1")) crowded_page
  = (Throw NoChildDatabase,
     (crowded_page, [GetBlockChildren (js "page-1") 100 None])) /\
  fst (run (main (sample_env two_gyms)) crowded_page) = Throw NoChildDatabase /\
  (exists listing,
     run (InspectPage.main 2 (sample_env two_gyms)) crowded_page
     = (Ok listing,
        (crowded_page,
         [GetBlockChildren (js "page-1") 100 None;
          GetBlockChildren (js "page-1") 100 (Some 100)])) /\
     InspectPage.n listing = 101 /\
     In (js "child_database", 1) (InspectPage.types listing)).
Proof.
  split; [apply in_or_app; right; now left|].
  split; [vm_compute; reflexivity|].
  split; [vm_compute; reflexivity|].
  eexists. split; [vm_compute; reflexivity|].
  split; [reflexivity | right; left; reflexivity].
Qed.

(* ================================================================== *)
(** * Two runs against the store served from memory                    *)
(* ================================================================== *)

Lemma set_mem_In (k : str) (keys : ListSet.set str) :
  ListSet.set_mem str_eq_dec k keys = true <-> In k keys.
Proof.
  split; [apply ListSet.set_mem_correct1 | apply ListSet.set_mem_correct2].
Qed.

Lemma str_eqb_refl (a : str) : str_eqb a a = true.
Proof. unfold str_eqb. destruct (str_eq_dec a a); congruence. Qed.

(** The loop against the store: it never fails, and appends one row per
    new entry. *)
Lemma sync_loop_store (databaseId isoDate : str) (keys : ListSet.set str)
    (entries : list entry) :
  forall (c s : nat) (w : store) (log : list request),
  sync_loop databaseId isoDate keys entries c s (w, log)
  = (Ok (c + length (filter (is_new keys) entries),
         s + length (filter (fun e => negb (is_new keys e)) entries)),
     ({| store_children := store_children w;
         store_rows := store_rows w
                       ++ map (wod_row isoDate) (filter (is_new keys) entries) |},
      log ++ map (create_request databaseId isoDate) (filter (is_new keys) entries))).
Proof.
  induction entries as [|e rest IH]; intros c s w log.
  - simpl. unfold ret. rewrite !app_nil_r, !Nat.add_0_r. now destruct w.
  - cbn [sync_loop].
    assert (Em : ListSet.set_mem str_eq_dec (entry_key e) keys
                 = negb (is_new keys e))
      by (unfold is_new; now rewrite negb_involutive).
    rewrite Em. cbn [filter].
    destruct (is_new keys e); cbn [negb].
    + unfold bind, createWodRow. rewrite notionReq_run.
      cbn [serve store_notion store_serve fst snd outcome].
      rewrite IH. cbn [store_children store_rows map length].
      unfold create_request at 3.
      rewrite <- !app_assoc, !Nat.add_succ_r. reflexivity.
    + rewrite IH. cbn [length]. now rewrite !Nat.add_succ_r.
Qed.

(** A run against the store, when the database is among the first hundred
    children of the page. *)
Lemma main_store (e : env) (w : store) (log : list request)
    (entries : list entry) (db : block) :
  configured e ->
  parseWodPage (show (WOD_MARKDOWN e)) (ddmmyyyyFromISO (today e)) = Ok entries ->
  entries <> [] ->
  find (fun b => str_eqb (block_type b) (js "child_database"))
    (firstn 100 (store_children w)) = Some db ->
  let keys := existing_keys (firstn 100 (matching (today e) w)) in
  main e (w, log)
  = (Ok {| sum_isoDate := today e;
           created := length (filter (is_new keys) entries);
           skipped := length (filter (fun x => negb (is_new keys x)) entries);
           total := length entries |},
     ({| store_children := store_children w;
         store_rows := store_rows w
                       ++ map (wod_row (today e)) (filter (is_new keys) entries) |},
      log
      ++ GetBlockChildren (show (NOTION_PAGE_ID e)) 100 None
      :: QueryDatabase (block_id db) 100 (today e) None
      :: map (create_request (block_id db) (today e)) (filter (is_new keys) entries))).
Proof.
  intros (Ht & Hp & Hm) Hparse Hne Hfind keys. unfold main.
  rewrite Ht, Hp, Hm. unfold bind at 1. unfold lift. rewrite Hparse.
  destruct entries as [|e0 rest]; [congruence|]. cbn [is_nil].
  unfold bind at 1. unfold getChildDatabaseId, bind at 1.
  rewrite notionReq_run. cbn [serve store_notion store_serve fst snd outcome].
  cbn [results offset_of]. rewrite skipn_O, Hfind. unfold ret at 1.
  unfold bind at 1. rewrite queryExistingForDate_run.
  cbn [serve store_notion store_serve fst snd outcome rmap query_results offset_of].
  rewrite skipn_O. fold keys.
  unfold bind. rewrite sync_loop_store. unfold ret.
  rewrite <- !app_assoc. reflexivity.
Qed.

Lemma whitespace_only_trim (s : str) :
  whitespace_only (trim s) = true -> trim s = [].
Proof.
  destruct (trim s) as [|c r] eqn:E; [reflexivity|].
  apply trim_no_leading in E. simpl. now rewrite E.
Qed.

(** The location text of a row reads back as the location of its entry,
    when that location is trimmed. *)
Lemma location_reads_back (l : str) :
  (whitespace_only l = true -> l = []) ->
  concat (map content (notionRichText (Some l))) = l.
Proof.
  intros Hl. destruct (whitespace_only l) eqn:E.
  - rewrite (notionRichText_blank l E). symmetry. now apply Hl.
  - exact (notionRichText_text l E).
Qed.

(** The key read back from the row of an entry is the key of the entry,
    when the entry names its program. *)
Lemma row_key_reads_back (isoDate : str) (x : entry) :
  (whitespace_only (loc x) = true -> loc x = []) ->
  program x <> [] ->
  page_key (page_of_row (wod_row isoDate x)) = entry_key x.
Proof.
  intros Hl Hp. unfold page_key, page_of_row, wod_row, entry_key.
  cbn [page_Location page_Type row_Location row_Type].
  rewrite (location_reads_back Hl).
  destruct (program x); [congruence | reflexivity].
Qed.

(** Every entry of the parser has a trimmed location. *)
Lemma parse_loop_loc_trimmed (lines : list str) (target : str) (fuel : nat) :
  forall (i : nat) (acc entries : list entry),
  (forall x, In x acc -> whitespace_only (loc x) = true -> loc x = []) ->
  parse_loop fuel lines target i acc = Ok entries ->
  forall x, In x entries -> whitespace_only (loc x) = true -> loc x = [].
Proof.
  induction fuel as [|fuel IH]; intros i acc entries Hacc Hrun; [discriminate|].
  rewrite parse_loop_step in Hrun.
  destruct (i <? length lines); [|injection Hrun as <-; exact Hacc].
  destruct (match_date_header (opt_trim (nth_error lines i))) as [d|];
    [|eapply IH; eauto].
  destruct (body_loop (S (length lines)) lines (i + 4) []) as [[i' b]|err];
    [|discriminate].
  cbn [rbind] in Hrun. eapply IH; [|exact Hrun].
  intros x Hin. apply in_app_or in Hin as [Hin | Hin]; [now apply Hacc|].
  unfold emit in Hin. destruct (str_eqb d target); [|destruct Hin].
  destruct Hin as [<- | []]. cbn [loc]. unfold field.
  apply whitespace_only_trim.
Qed.

Lemma filter_all {A} (f : A -> bool) (l : list A) :
  (forall x, In x l -> f x = true) -> filter f l = l.
Proof.
  induction l as [|x l IH]; intros Hf; simpl; [reflexivity|].
  rewrite (Hf x (or_introl eq_refl)). f_equal. apply IH.
  intros y Hy. apply Hf. now right.
Qed.

Lemma filter_none {A} (f : A -> bool) (l : list A) :
  (forall x, In x l -> f x = false) -> filter f l = [].
Proof.
  induction l as [|x l IH]; intros Hf; simpl; [reflexivity|].
  rewrite (Hf x (or_introl eq_refl)). apply IH.
  intros y Hy. apply Hf. now right.
Qed.

(** X14: two runs on the same page, from a database without row for the
    day: when every entry names its program and there are at most a
    hundred of them, the first run creates them all, the second skips
    them all and leaves the store as the first left it. *)
Lemma two_runs_idempotent (e : env) (w : store) (entries : list entry) (db : block) :
  configured e ->
  parseWodPage (show (WOD_MARKDOWN e)) (ddmmyyyyFromISO (today e)) = Ok entries ->
  entries <> [] ->
  length entries <= 100 ->
  (forall x, In x entries -> program x <> []) ->
  find (fun b => str_eqb (block_type b) (js "child_database"))
    (firstn 100 (store_children w)) = Some db ->
  matching (today e) w = [] ->
  let first := run (main e) w in
  let second := run (main e) (fst (snd first)) in
  fst first
  = Ok {| sum_isoDate := today e; created := length entries; skipped := 0;
          total := length entries |} /\
  fst second
  = Ok {| sum_isoDate := today e; created := 0; skipped := length entries;
          total := length entries |} /\
  fst (snd second) = fst (snd first).
Proof.
  intros Hc Hparse Hne Hlen Hprog Hfind Hnone. unfold run.
  assert (Htrim : forall x, In x entries ->
                    whitespace_only (loc x) = true -> loc x = []).
  { unfold parseWodPage, parse_lines in Hparse.
    eapply parse_loop_loc_trimmed; [|exact Hparse]. intros x []. }
  cbv zeta.
  rewrite (main_store w [] Hc Hparse Hne Hfind).
  rewrite Hnone. cbn [firstn existing_keys fold_left].
  assert (Hnew : filter (is_new (ListSet.empty_set str)) entries = entries)
    by (apply filter_all; reflexivity).
  assert (Hold : filter (fun x => negb (is_new (ListSet.empty_set str) x)) entries = [])
    by (apply filter_none; reflexivity).
  rewrite Hnew, Hold. cbn [fst snd length].
  split; [reflexivity|].
  set (w1 := {| store_children := store_children w;
                store_rows := store_rows w ++ map (wod_row (today e)) entries |}).
  assert (Hmatch : matching (today e) w1
                   = map page_of_row (map (wod_row (today e)) entries)).
  { unfold matching in *. cbn [store_rows w1]. rewrite filter_app, map_app, Hnone.
    cbn [app]. f_equal. apply filter_all.
    intros r Hr. apply in_map_iff in Hr as [x [<- _]]. apply str_eqb_refl. }
  rewrite (@main_store e w1 [] entries db Hc Hparse Hne Hfind).
  rewrite Hmatch, firstn_all2 by (now rewrite !length_map).
  assert (Hseen : forall x, In x entries ->
            is_new (existing_keys (map page_of_row (map (wod_row (today e)) entries))) x
            = false).
  { intros x Hx. unfold is_new. apply negb_false_iff, set_mem_In.
    apply existing_keys_In. exists (page_of_row (wod_row (today e) x)).
    split; [now apply in_map, in_map|].
    apply row_key_reads_back; auto. }
  rewrite (filter_none _ _ Hseen).
  rewrite (filter_all (fun x => negb (is_new _ x)) entries)
    by (intros x Hx; now rewrite (Hseen x Hx)).
  cbn [fst snd length map]. split; [reflexivity|].
  unfold w1. cbn [store_children store_rows]. now rewrite app_nil_r.
Qed.

(* ================================================================== *)
(** * More on the parser                                               *)
(* ================================================================== *)

Lemma str_eqb_eq (a b : str) : str_eqb a b = true <-> a = b.
Proof.
  unfold str_eqb. destruct (str_eq_dec a b); split; congruence.
Qed.

Lemma trim_trimmed (s : str) : trimmed (trim s).
Proof.
  split; intros; [eapply trim_no_leading | eapply trim_no_trailing]; eauto.
Qed.

Lemma stripAnnoyingLines_trimmed (text : str) : trimmed (stripAnnoyingLines text).
Proof. unfold stripAnnoyingLines. apply trim_trimmed. Qed.

Lemma stripAnnoyingLines_no_triple (text : str) :
  ~ infix [LF; LF; LF] (stripAnnoyingLines text).
Proof.
  rewrite stripAnnoyingLines_stages. intros Hi.
  match goal with
  | H : infix _ (trim ?y) |- _ => destruct (trim_infix y) as [p [q Hq]];
      assert (Hc : infix [LF; LF; LF] y)
        by (eapply infix_trans; [exact H | now exists p, q])
  end.
  rewrite collapse_newlines_squeeze in Hc.
  now apply (proj2 (squeeze_no_triple _ (Nat.le_0_l 2))) in Hc.
Qed.

Lemma stripAnnoyingLines_lines (text line : str) :
  In line (split_lines (stripAnnoyingLines text)) -> is_noise line = false.
Proof.
  intros Hin. apply split_lines_line in Hin as [Hi Hn].
  eapply stripAnnoyingLines_stretch; eauto.
Qed.

(** What holds of every entry the loop pushes holds of all it returns. *)
Lemma parse_loop_forall (P : entry -> Prop) (lines : list str) (target : str) :
  (forall d x y b, str_eqb d target = true ->
     P (mkEntry d (field x) (field y) (stripAnnoyingLines b))) ->
  forall (fuel i : nat) (acc entries : list entry),
  Forall P acc ->
  parse_loop fuel lines target i acc = Ok entries ->
  Forall P entries.
Proof.
  intros HP. induction fuel as [|fuel IH]; intros i acc entries Hacc Hrun;
    [discriminate|].
  rewrite parse_loop_step in Hrun.
  destruct (i <? length lines); [|injection Hrun as <-; exact Hacc].
  destruct (match_date_header (opt_trim (nth_error lines i))) as [d|];
    [|eapply IH; eauto].
  destruct (body_loop (S (length lines)) lines (i + 4) []) as [[i' b]|err];
    [|discriminate].
  cbn [rbind] in Hrun. eapply IH; [|exact Hrun].
  apply Forall_app. split; [exact Hacc|].
  unfold emit. destruct (str_eqb d target) eqn:E; [|constructor].
  constructor; [|constructor]. now apply HP.
Qed.

(** X1: every entry [parseWodPage] returns carries the target date. *)
Theorem parseWodPage_only_target (markdown target : str) (entries : list entry) :
  parseWodPage markdown target = Ok entries ->
  forall x, In x entries -> date x = target.
Proof.
  intros Hrun. apply Forall_forall.
  unfold parseWodPage, parse_lines in Hrun.
  eapply parse_loop_forall; [|constructor|exact Hrun].
  intros d x y b Hd. now apply str_eqb_eq in Hd.
Qed.

Lemma parseWodPage_only_target_witness :
  date (mkEntry (js "01/02/2026") (js "Gym A") [] (js "Warm up"))
  = js "01/02/2026".
Proof.
  apply (@parseWodPage_only_target no_program (js "01/02/2026")
           [mkEntry (js "01/02/2026") (js "Gym A") [] (js "Warm up")]).
  - vm_compute. reflexivity.
  - now left.
Defined.

(** X2: the fields of every entry [parseWodPage] returns are normalised:
    location, program and body neither start nor end with white space,
    and the body holds no three line feeds in a row and no line that
    tests positive for a boilerplate phrase. *)
Theorem parseWodPage_entries_normalised (markdown target : str)
    (entries : list entry) :
  parseWodPage markdown target = Ok entries ->
  forall x, In x entries ->
    trimmed (loc x) /\ trimmed (program x) /\ trimmed (body x) /\
    ~ infix [LF; LF; LF] (body x) /\
    forall line, In line (split_lines (body x)) -> is_noise line = false.
Proof.
  intros Hrun. apply Forall_forall.
  unfold parseWodPage, parse_lines in Hrun.
  eapply parse_loop_forall; [|constructor|exact Hrun].
  intros d x y b _. cbn [loc program body]. unfold field.
  split; [apply trim_trimmed|]. split; [apply trim_trimmed|].
  split; [apply stripAnnoyingLines_trimmed|].
  split; [apply stripAnnoyingLines_no_triple|].
  intros line. apply stripAnnoyingLines_lines.
Qed.

Lemma parseWodPage_entries_normalised_witness :
  trimmed (js "Gym A") /\ trimmed (js "CrossFit").
Proof.
  destruct (@parseWodPage_entries_normalised two_gyms (js "01/02/2026")
              [mkEntry (js "01/02/2026") (js "Gym A") (js "CrossFit")
                 (js "Warm up
5 rounds");
               mkEntry (js "01/02/2026") (js "Gym B") (js "Open Gym")
                 (js "Free lift")]
              ltac:(vm_compute; reflexivity)
              (mkEntry (js "01/02/2026") (js "Gym A") (js "CrossFit")
                 (js "Warm up
5 rounds"))
              (or_introl eq_refl)) as (Hl & Hp & _).
  split; [exact Hl | exact Hp].
Defined.

(** X3: when no line of the input is a date header of the target date,
    [parseWodPage] returns no entry and raises nothing; in particular on
    an input without date header. *)
Theorem parseWodPage_no_target_header (markdown target : str) :
  (forall l, In l (split_lines markdown) ->
     match_date_header (Some (trim l)) <> Some target) ->
  parseWodPage markdown target = Ok [].
Proof.
  intros Hno. unfold parseWodPage, parse_lines.
  set (lines := split_lines markdown) in *.
  assert (G : forall fuel i, length lines - i < fuel ->
            parse_loop fuel lines target i [] = Ok []).
  { induction fuel as [|fuel IH]; intros i Hf; [lia|].
    rewrite parse_loop_step.
    destruct (i <? length lines) eqn:E; [|reflexivity].
    apply Nat.ltb_lt in E.
    destruct (nth_error lines i) as [l|] eqn:Hn;
      [|apply nth_error_None in Hn; lia].
    cbn [opt_trim option_map].
    destruct (match_date_header (Some (trim l))) as [d|] eqn:Hm;
      [|apply IH; lia].
    destruct (@body_loop_ok lines (S (length lines)) (i + 4) [])
      as [i' [b [Hb Hle]]]; [lia|].
    rewrite Hb. cbn [rbind]. unfold emit.
    destruct (str_eqb d target) eqn:Ed.
    - apply str_eqb_eq in Ed. subst d.
      exfalso. apply (Hno l); [eapply nth_error_In; eauto | exact Hm].
    - apply IH. lia. }
  apply G. lia.
Qed.

Lemma parseWodPage_no_target_header_witness :
  parseWodPage other_day (js "01/02/2026") = Ok [].
Proof.
  apply parseWodPage_no_target_header.
  intros l Hin.
  vm_compute in Hin.
  repeat (destruct Hin as [<- | Hin]; [vm_compute; discriminate|]).
  destruct Hin.
Defined.

Lemma drop_while_fixed (p : char -> bool) (s : str) :
  (forall c r, s = c :: r -> p c = false) -> drop_while p s = s.
Proof.
  destruct s as [|c r]; [reflexivity|]. intros Hc. simpl.
  now rewrite (Hc c r eq_refl).
Qed.

(** A text that is trimmed already is left as it is. *)
Lemma trim_fixed (s : str) : trimmed s -> trim s = s.
Proof.
  intros [Hl Ht]. unfold trim, trimEnd, trimStart.
  rewrite (drop_while_fixed _ Hl).
  rewrite drop_while_fixed; [apply rev_involutive|].
  intros c r Hr. apply (Ht (rev r) c).
  rewrite <- (rev_involutive s), Hr. reflexivity.
Qed.

(** X4: a header line made of four hashes, one blank and a name gives the
    name as its field, when the name is not empty and is trimmed. *)
Theorem field_of_header_line (name : str) :
  name <> [] -> trimmed name -> field (js "#### " ++ name) = name.
Proof.
  intros Hne [Hl Ht].
  destruct name as [|c r]; [congruence|].
  assert (Hc : is_space c = false) by (eapply Hl; reflexivity).
  assert (Hfix : trim (js "#### " ++ c :: r) = js "#### " ++ c :: r).
  { apply trim_fixed. split.
    - intros x y [= <- _]. reflexivity.
    - intros y x Hy.
      destruct (exists_last (l := c :: r)) as [r' [d Hd]]; [discriminate|].
      rewrite Hd in Hy.
      change (js "#### " ++ r' ++ [d]) with ((js "#### " ++ r') ++ [d]) in Hy
        || rewrite app_assoc in Hy.
      apply app_inj_tail in Hy as [_ <-]. eapply Ht; eauto. }
  unfold field. rewrite Hfix. unfold strip_hashes.
  change (matches_prefix (Cat (lit (js "####")) (plus ws)) (js "#### " ++ c :: r))
    with true.
  change (drop_while is_space (skipn 4 (js "#### " ++ c :: r)))
    with (if is_space c then drop_while is_space r else c :: r).
  rewrite Hc. apply trim_fixed. split; assumption.
Qed.

Lemma field_of_header_line_witness : field (js "#### Gym A") = js "Gym A".
Proof.
  apply (@field_of_header_line (js "Gym A")); [discriminate|].
  split.
  - intros c r [= <- _]. reflexivity.
  - intros r c Hr. change (js "Gym A") with (js "Gym " ++ [65%N]) in Hr.
    apply app_inj_tail in Hr as [_ <-]. reflexivity.
Defined.

(** ** Pages in the expected layout *)

Lemma body_loop_fuel (lines : list str) (f1 : nat) :
  forall (f2 i : nat) (acc : list str),
  length lines - i < f1 -> length lines - i < f2 ->
  body_loop f1 lines i acc = body_loop f2 lines i acc.
Proof.
  induction f1 as [|f1 IH]; intros f2 i acc H1 H2; [lia|].
  destruct f2 as [|f2]; [lia|].
  rewrite !body_loop_step.
  destruct (i <? length lines) eqn:E; [|reflexivity].
  apply Nat.ltb_lt in E.
  destruct (test_date_header (opt_trim (nth_error lines i))); [reflexivity|].
  apply IH; lia.
Qed.

Section Shift.

Variables pre rest : list str.

Lemma ltb_shift (i : nat) :
  (length pre + i <? length (pre ++ rest)) = (i <? length rest).
Proof.
  rewrite length_app.
  destruct (i <? length rest) eqn:E.
  - apply Nat.ltb_lt in E. apply Nat.ltb_lt. lia.
  - apply Nat.ltb_ge in E. apply Nat.ltb_ge. lia.
Qed.

Lemma nth_error_shift (i : nat) :
  nth_error (pre ++ rest) (length pre + i) = nth_error rest i.
Proof.
  rewrite nth_error_app2 by lia. f_equal. lia.
Qed.

Lemma nth_shift (i : nat) :
  nth (length pre + i) (pre ++ rest) [] = nth i rest [].
Proof.
  rewrite app_nth2 by lia. f_equal. lia.
Qed.

Lemma line_or_shift (i j : nat) :
  line_or (pre ++ rest) (length pre + i) (length pre + j) = line_or rest i j.
Proof. unfold line_or. now rewrite !nth_error_shift. Qed.

Lemma body_loop_shift (fuel : nat) : forall (i : nat) (acc : list str),
  body_loop fuel (pre ++ rest) (length pre + i) acc
  = rmap (fun r => (length pre + fst r, snd r)) (body_loop fuel rest i acc).
Proof.
  induction fuel as [|fuel IH]; intros i acc; [reflexivity|].
  rewrite !body_loop_step, ltb_shift, nth_error_shift, nth_shift.
  destruct (i <? length rest); [|reflexivity].
  destruct (test_date_header (opt_trim (nth_error rest i))); [reflexivity|].
  rewrite <- IH. f_equal. lia.
Qed.

(** The scan of a suffix of the lines does not depend on what stands
    before it. *)
Lemma parse_loop_shift (target : str) (f1 : nat) :
  forall (f2 i : nat) (acc : list entry),
  length rest - i < f1 -> length rest - i < f2 ->
  parse_loop f1 (pre ++ rest) target (length pre + i) acc
  = parse_loop f2 rest target i acc.
Proof.
  induction f1 as [|f1 IH]; intros f2 i acc H1 H2; [lia|].
  destruct f2 as [|f2]; [lia|].
  rewrite !parse_loop_step, ltb_shift, nth_error_shift.
  destruct (i <? length rest) eqn:E; [|reflexivity].
  apply Nat.ltb_lt in E.
  destruct (match_date_header (opt_trim (nth_error rest i))) as [d|].
  - replace (length pre + i + 4) with (length pre + (i + 4)) by lia.
    replace (length pre + i + 3) with (length pre + (i + 3)) by lia.
    replace (length pre + i + 2) with (length pre + (i + 2)) by lia.
    replace (length pre + i + 1) with (length pre + (i + 1)) by lia.
    rewrite !line_or_shift, body_loop_shift.
    rewrite (@body_loop_fuel rest (S (length (pre ++ rest))) (S (length rest)))
      by (rewrite ?length_app; lia).
    destruct (@body_loop_ok rest (S (length rest)) (i + 4) [])
      as [i' [b [Hb Hle]]]; [lia|].
    rewrite Hb. cbn [rmap rbind fst snd]. apply IH; lia.
  - replace (S (length pre + i)) with (length pre + S i) by lia.
    apply IH; lia.
Qed.

Lemma parse_from_shift (target : str) :
  parse_from (pre ++ rest) target (length pre) = parse_lines rest target.
Proof.
  unfold parse_from, parse_lines.
  pose proof (@parse_loop_shift target (S (length (pre ++ rest)))
                (S (length rest)) 0 []) as Hs.
  rewrite Nat.add_0_r in Hs. apply Hs; rewrite ?length_app; lia.
Qed.

End Shift.

(** The inner loop collects the body lines up to the next date header or
    to the end of the input. *)
Lemma nth_error_middle (pre : list str) (l : str) (post : list str) :
  (length pre <? length (pre ++ l :: post)) = true /\
  nth_error (pre ++ l :: post) (length pre) = Some l /\
  nth (length pre) (pre ++ l :: post) [] = l.
Proof.
  split; [apply Nat.ltb_lt; rewrite length_app; simpl; lia|].
  split.
  - rewrite nth_error_app2 by lia. now rewrite Nat.sub_diag.
  - rewrite app_nth2 by lia. now rewrite Nat.sub_diag.
Qed.

Lemma body_loop_collect (rest : list str) :
  (rest = [] \/ exists h t, rest = h :: t /\ ~ plain_line h) ->
  forall (bl pre acc : list str) (fuel : nat),
  Forall plain_line bl ->
  length bl < fuel ->
  body_loop fuel (pre ++ bl ++ rest) (length pre) acc
  = Ok (length pre + length bl, acc ++ bl).
Proof.
  intros Hrest. induction bl as [|l bl IH]; intros pre acc fuel Hb Hf.
  - destruct fuel as [|fuel]; [simpl in Hf; lia|].
    rewrite body_loop_step. cbn [app length].
    rewrite Nat.add_0_r, app_nil_r.
    destruct Hrest as [-> | [h [t [-> Hh]]]].
    + rewrite app_nil_r, Nat.ltb_irrefl. reflexivity.
    + destruct (nth_error_middle pre h t) as (E1 & E2 & _).
      rewrite E1, E2. cbn [opt_trim option_map]. unfold plain_line in Hh.
      destruct (test_date_header (Some (trim h))); [reflexivity | congruence].
  - destruct fuel as [|fuel]; [simpl in Hf; lia|].
    inversion Hb as [|? ? Hl Hb']; subst.
    rewrite body_loop_step. cbn [app].
    destruct (nth_error_middle pre l (bl ++ rest)) as (E1 & E2 & E3).
    rewrite E1, E2, E3. cbn [opt_trim option_map].
    unfold plain_line in Hl. rewrite Hl.
    replace (pre ++ l :: bl ++ rest) with ((pre ++ [l]) ++ bl ++ rest)
      by (now rewrite <- app_assoc).
    replace (S (length pre)) with (length (pre ++ [l]))
      by (rewrite length_app; simpl; lia).
    rewrite IH by (assumption || (simpl in Hf; lia)).
    rewrite length_app, <- app_assoc. simpl. f_equal. f_equal. lia.
Qed.

(** One record in the expected layout, followed by a date header or by
    nothing, gives its entry and then what the rest of the page gives. *)
Lemma parse_lines_record (target : str) (r : record_lines) (d : str)
    (rest : list str) :
  well_formed r d ->
  (rest = [] \/ exists h t, rest = h :: t /\ ~ plain_line h) ->
  parse_lines (lines_of r ++ rest) target
  = rmap (app (entry_of target (r, d))) (parse_lines rest target).
Proof.
  intros [Hh Hb] Hrest. destruct r as [h a x y body]. cbn [r_header r_body] in *.
  unfold lines_of, entry_of. cbn [r_header r_gap r_loc r_prog r_body fst snd].
  set (lines := (h :: a :: x :: y :: body) ++ rest).
  assert (Hat : header_at lines 0 d) by (exists h; split; [reflexivity | exact Hh]).
  destruct (parse_from_header target Hat) as [i' [b [Hloop [_ E]]]].
  change (parse_lines lines target) with (parse_from lines target 0).
  rewrite E. clear E.
  assert (Hc : body_loop (S (length lines)) lines 4 [] = Ok (4 + length body, body)).
  { unfold lines.
    change ((h :: a :: x :: y :: body) ++ rest)
      with ([h; a; x; y] ++ body ++ rest).
    apply (@body_loop_collect rest Hrest body [h; a; x; y] []); [exact Hb|].
    rewrite !length_app. simpl. lia. }
  cbn [Nat.add] in Hloop. rewrite Hc in Hloop. injection Hloop as <- <-.
  f_equal.
  unfold lines.
  replace (4 + length body) with (length (h :: a :: x :: y :: body))
    by reflexivity.
  apply parse_from_shift.
Qed.

(** A line that is no date header, at the start of the input, is passed
    over. *)
Lemma parse_lines_plain (target : str) (l : str) (rest : list str) :
  plain_line l -> parse_lines (l :: rest) target = parse_lines rest target.
Proof.
  intros Hl.
  change (parse_lines (l :: rest) target) with (parse_from (l :: rest) target 0).
  rewrite parse_from_skip.
  - apply (@parse_from_shift [l] rest target).
  - simpl. lia.
  - cbn [nth_error opt_trim option_map]. unfold plain_line, test_date_header in Hl.
    unfold match_date_header. now rewrite Hl.
Qed.

Lemma lines_of_records_start (rds : list (record_lines * str)) :
  Forall (fun rd => well_formed (fst rd) (snd rd)) rds ->
  concat (map (fun rd => lines_of (fst rd)) rds) = [] \/
  exists h t, concat (map (fun rd => lines_of (fst rd)) rds) = h :: t /\
              ~ plain_line h.
Proof.
  intros Hw. destruct rds as [|[r d] rds]; [now left|]. right.
  inversion Hw as [|? ? [Hh _] _]; subst. cbn [fst snd] in Hh.
  exists (r_header r), (r_gap r :: r_loc r :: r_prog r :: r_body r
                        ++ concat (map (fun rd => lines_of (fst rd)) rds)).
  split; [reflexivity|].
  unfold plain_line, test_date_header. unfold match_date_header in Hh.
  destruct (matches_whole re_date_header (trim (r_header r))); congruence.
Qed.

(** X5: a page made of lines that are no date headers followed by records
    in the expected layout (date header, one line, location line, program
    line, body lines that are no date headers) parses to the entries of
    the records of the target date, in the order of the page, with the
    fields taken from the location and program lines and the body cleaned. *)
Theorem parse_lines_records (target : str) (preamble : list str)
    (rds : list (record_lines * str)) :
  Forall plain_line preamble ->
  Forall (fun rd => well_formed (fst rd) (snd rd)) rds ->
  parse_lines (preamble ++ concat (map (fun rd => lines_of (fst rd)) rds)) target
  = Ok (flat_map (entry_of target) rds).
Proof.
  intros Hpre Hw. induction preamble as [|l preamble IHp].
  - clear Hpre. cbn [app]. induction rds as [|[r d] rds IH].
    + reflexivity.
    + inversion Hw as [|? ? Hr Hw']; subst. cbn [fst snd] in Hr.
      cbn [map concat flat_map fst].
      rewrite (parse_lines_record target Hr (lines_of_records_start Hw')).
      rewrite (IH Hw'). reflexivity.
  - inversion Hpre; subst. cbn [app].
    rewrite parse_lines_plain by assumption. now apply IHp.
Qed.

Lemma parse_lines_records_witness :
  parse_lines
    ([js "Schedule"]
     ++ concat (map (fun rd => lines_of (fst rd))
          [(mkRecordLines (js "#### 01/02/2026") [] (js "#### Gym A")
              (js "#### CrossFit") [js "Warm up"; js "5 rounds"],
            js "01/02/2026");
           (mkRecordLines (js "#### 02/02/2026") [] (js "#### Gym B")
              (js "#### Open Gym") [js "Free lift"],
            js "02/02/2026")]))
    (js "01/02/2026")
  = Ok [mkEntry (js "01/02/2026") (js "Gym A") (js "CrossFit")
          (js "Warm up
5 rounds")].
Proof.
  refine (@parse_lines_records (js "01/02/2026") [js "Schedule"] _ _ _).
  - repeat constructor.
  - repeat constructor.
Defined.

(* ================================================================== *)
(** * More on the noise filter                                         *)
(* ================================================================== *)

Lemma infix_In (a b : str) (c : char) : infix a b -> In c a -> In c b.
Proof.
  intros [p [q ->]] Hc. apply in_or_app. right. apply in_or_app. now left.
Qed.

Lemma split_lines_no_cr (u : str) :
  ~ In CR u -> split_lines u = split_on LF u.
Proof.
  induction u as [|c u IH]; intros Hn; [reflexivity|].
  assert (Hu : ~ In CR u) by (intros Hin; apply Hn; now right).
  assert (Hc : char_eqb c CR = false).
  { apply char_eqb_neq. intros ->. apply Hn. now left. }
  cbn [split_lines split_on]. destruct (char_eqb c LF).
  - now rewrite IH.
  - destruct u as [|d u']; [reflexivity|].
    rewrite Hc. cbn [andb]. now rewrite IH.
Qed.

Lemma split_on_not_nil (sep : char) (u : str) : split_on sep u <> [].
Proof.
  destruct u as [|c u]; simpl; [discriminate|].
  destruct (char_eqb c sep); [discriminate|].
  destruct (split_on sep u); discriminate.
Qed.

Lemma join_cons (sep a : str) (ls : list str) :
  ls <> [] -> join sep (a :: ls) = a ++ sep ++ join sep ls.
Proof. destruct ls; [congruence | reflexivity]. Qed.

(** Splitting at a character and joining with it gives the text back. *)
Lemma join_split_on (sep : char) (u : str) :
  join [sep] (split_on sep u) = u.
Proof.
  induction u as [|c u IH]; [reflexivity|].
  cbn [split_on]. destruct (char_eqb c sep) eqn:E.
  - apply char_eqb_eq in E; subst c.
    rewrite join_cons by apply split_on_not_nil. now rewrite IH.
  - destruct (split_on sep u) as [|l ls] eqn:Hs;
      [now apply split_on_not_nil in Hs|].
    destruct ls as [|l2 ls].
    + simpl in *. now f_equal.
    + rewrite join_cons by discriminate. rewrite join_cons in IH by discriminate.
      simpl. now f_equal.
Qed.

Lemma leading_lf_triple (u : str) : 3 <= leading_lf u -> infix [LF; LF; LF] u.
Proof.
  intros H3. destruct (leading_lf_split u) as [Hs _].
  destruct (leading_lf u) as [|[|[|k]]]; try lia.
  rewrite Hs. exists [], (repeat LF k ++ skipn (S (S (S k))) u). reflexivity.
Qed.

(** A text without three line feeds in a row is left as it is. *)
Lemma squeeze_fixed (u : str) : forall run : nat,
  leading_lf u + run <= 2 -> ~ infix [LF; LF; LF] u -> squeeze run u = u.
Proof.
  induction u as [|c u IH]; intros run Hr Hn; [reflexivity|].
  assert (Hu : ~ infix [LF; LF; LF] u) by (intros Hi; apply Hn; now apply infix_cons).
  simpl in *. destruct (char_eqb c LF) eqn:E.
  - apply char_eqb_eq in E; subst c.
    assert (Er : (run <? 2) = true) by (apply Nat.ltb_lt; lia).
    rewrite Er. f_equal. apply IH; [lia | exact Hu].
  - f_equal. apply IH; [|exact Hu].
    destruct (le_lt_dec 3 (leading_lf u)) as [H3 | H3]; [|lia].
    exfalso. now apply Hu, leading_lf_triple.
Qed.

Lemma squeeze_In (u : str) (c : char) : forall run : nat,
  In c (squeeze run u) -> In c u.
Proof.
  induction u as [|d u IH]; intros run Hc; [exact Hc|].
  simpl in Hc. destruct (char_eqb d LF) eqn:E.
  - apply char_eqb_eq in E; subst d. destruct (run <? 2).
    + destruct Hc as [<- | Hc]; [now left | right; eauto].
    + right; eauto.
  - destruct Hc as [<- | Hc]; [now left | right; eauto].
Qed.

Lemma join_In (ls : list str) (c : char) :
  In c (join [LF] ls) -> c = LF \/ exists l, In l ls /\ In c l.
Proof.
  induction ls as [|l ls IH]; intros Hc; [destruct Hc|].
  destruct ls as [|l2 ls].
  - right. exists l. split; [now left | exact Hc].
  - rewrite join_cons in Hc by discriminate.
    apply in_app_or in Hc as [Hc | Hc].
    + right. exists l. split; [now left | exact Hc].
    + destruct Hc as [<- | Hc]; [now left|].
      destruct (IH Hc) as [-> | [l' [Hin Hl']]]; [now left|].
      right. exists l'. split; [now right | exact Hl'].
Qed.

(** The cleaning adds no character to a text. *)
Lemma stripAnnoyingLines_In (text : str) (c : char) :
  c <> LF -> In c (stripAnnoyingLines text) -> In c text.
Proof.
  intros Hlf Hc. rewrite stripAnnoyingLines_stages in Hc.
  match type of Hc with
  | In _ (trim ?y) => destruct (trim_infix y) as [p [q Hq]];
      assert (Hy : In c y)
        by (apply (@infix_In (trim y) y c); [exists p, q; exact Hq | exact Hc])
  end.
  rewrite collapse_newlines_squeeze in Hy. apply squeeze_In in Hy.
  apply join_In in Hy as [-> | [l [Hin Hl]]]; [congruence|].
  apply filter_In in Hin as [Hin _].
  apply split_lines_line in Hin as [Hi _].
  eapply infix_In; eauto.
Qed.

(** A text that is clean already is left as it is. *)
Lemma stripAnnoyingLines_fixed (u : str) :
  ~ In CR u ->
  (forall line, In line (split_lines u) -> is_noise line = false) ->
  ~ infix [LF; LF; LF] u ->
  trimmed u ->
  stripAnnoyingLines u = u.
Proof.
  intros Hcr Hnoise Htriple Htrim.
  rewrite stripAnnoyingLines_stages.
  rewrite filter_all by (intros l Hl; now rewrite (Hnoise l Hl)).
  rewrite split_lines_no_cr by exact Hcr.
  rewrite join_split_on, collapse_newlines_squeeze.
  rewrite squeeze_fixed; [now apply trim_fixed | | exact Htriple].
  destruct (le_lt_dec 3 (leading_lf u)) as [H3 | H3]; [|lia].
  exfalso. now apply Htriple, leading_lf_triple.
Qed.

(** X6: on a text without carriage return, cleaning twice is cleaning
    once.  A carriage return can break this: one that stands before a
    carriage return and line feed is kept by the first pass, next to the
    line feed, and taken as part of the separator by the second. *)
Theorem stripAnnoyingLines_idempotent (text : str) :
  (~ In CR text ->
   stripAnnoyingLines (stripAnnoyingLines text) = stripAnnoyingLines text) /\
  stripAnnoyingLines (stripAnnoyingLines [97; 13; 13; 10; 98]%N)
  <> stripAnnoyingLines [97; 13; 13; 10; 98]%N.
Proof.
  split; [|vm_compute; discriminate].
  intros Hcr. apply stripAnnoyingLines_fixed.
  - intros Hin. apply Hcr. apply stripAnnoyingLines_In in Hin; [exact Hin|].
    discriminate.
  - apply stripAnnoyingLines_lines.
  - apply stripAnnoyingLines_no_triple.
  - apply stripAnnoyingLines_trimmed.
Qed.

Lemma stripAnnoyingLines_idempotent_witness :
  stripAnnoyingLines (stripAnnoyingLines (js "Warm up



5 rounds
")) = stripAnnoyingLines (js "Warm up



5 rounds
").
Proof.
  apply (proj1 (stripAnnoyingLines_idempotent _)).
  vm_compute. intuition discriminate.
Defined.

Lemma join_app (sep : str) (ls1 ls2 : list str) :
  ls1 <> [] -> ls2 <> [] ->
  join sep (ls1 ++ ls2) = join sep ls1 ++ sep ++ join sep ls2.
Proof.
  induction ls1 as [|a ls1 IH]; [congruence|]. intros _ H2.
  destruct ls1 as [|b ls1].
  - cbn [app]. now rewrite join_cons by exact H2.
  - change ((a :: b :: ls1) ++ ls2) with (a :: ((b :: ls1) ++ ls2)).
    rewrite join_cons by (cbn [app]; discriminate).
    rewrite IH by (first [discriminate | exact H2]).
    rewrite (join_cons sep a (ls := b :: ls1)) by discriminate.
    now rewrite <- !app_assoc.
Qed.

(** Cut at its line feeds, a text that is trimmed and holds no three line
    feeds in a row has no two empty lines in a row. *)
Lemma trimmed_no_adjacent_empty (u : str) :
  trimmed u -> ~ infix [LF; LF; LF] u -> ~ adjacent_empty (split_on LF u).
Proof.
  intros [Hs He] H3 (pre & post & Hsplit).
  pose proof (join_split_on LF u) as Hj. rewrite Hsplit in Hj.
  destruct pre as [|p0 pre'].
  - cbn [app] in Hj. rewrite join_cons in Hj by discriminate.
    symmetry in Hj. cbn [app] in Hj. apply Hs in Hj.
    vm_compute in Hj. discriminate.
  - destruct post as [|q0 post'].
    + rewrite join_app in Hj by discriminate. cbn [join app] in Hj.
      symmetry in Hj.
      change (u = join [LF] (p0 :: pre') ++ [LF; LF]) in Hj.
      assert (Hu : u = (join [LF] (p0 :: pre') ++ [LF]) ++ [LF])
        by (now rewrite <- app_assoc).
      apply He in Hu. vm_compute in Hu. discriminate.
    + apply H3. exists (join [LF] (p0 :: pre')), (join [LF] (q0 :: post')).
      rewrite <- Hj. rewrite join_app by discriminate.
      change (join [LF] ([] :: [] :: q0 :: post'))
        with ([LF; LF] ++ join [LF] (q0 :: post')).
      reflexivity.
Qed.

(** C6, as the specification states it, fails once a blank line is more
    than an empty string between two line feeds.  Three lines in a row
    that hold one space each are returned as they are: neither are they
    collapsed nor is the result free of three blank lines in a row.  And
    where the lines of the text end in a carriage return before the line
    feed, lines that hold one more carriage return come out, under the
    split the function itself uses, as three empty lines in a row. *)
Lemma blank_lines_survive :
  let spaced := [97; 10; 32; 10; 32; 10; 32; 10; 98]%N in
  let returns := [97; 13; 13; 10; 13; 13; 10; 13; 13; 10; 13; 13; 10; 98]%N in
  split_lines spaced = [[97]; [32]; [32]; [32]; [98]]%N /\
  whitespace_only [32%N] = true /\
  stripAnnoyingLines spaced = spaced /\
  split_lines returns = [[97; 13]; [13]; [13]; [13]; [98]]%N /\
  whitespace_only [13%N] = true /\
  stripAnnoyingLines returns = [97; 13; 10; 13; 10; 13; 10; 13; 10; 98]%N /\
  split_lines (stripAnnoyingLines returns) = [[97]; []; []; []; [98]]%N.
Proof. cbv zeta. repeat split; vm_compute; reflexivity. Qed.

(** C6 (amended): for every text, [stripAnnoyingLines] drops the lines
    that test positive for either phrase (a test that does not tell
    letter case, so that no line of the result holds a phrase in any
    case), replaces every run of three or more line feeds, that is of two
    or more empty lines, by two line feeds, that is by one empty line,
    and trims the result: the result neither starts nor ends with white
    space and nowhere holds three line feeds in a row.  So, cut at its
    line feeds, the result has no two empty lines in a row; and neither
    has it under the split the function itself uses when the text holds
    no carriage return.  Only empty lines count: a line of white space is
    kept as any other line. *)
Theorem stripAnnoyingLines_clean (text : str) :
  stripAnnoyingLines text
  = trim (collapse_newlines
            (join [LF] (filter (fun line => negb (is_noise line))
                          (split_lines text)))) /\
  (forall line, In line (split_lines (stripAnnoyingLines text)) ->
     is_noise line = false /\
     ~ infix (js "NO RESERVATION, NO CLASS.") (map canonicalize line) /\
     ~ infix (js "MORE THAN 5 MIN") (map canonicalize line)) /\
  (forall a b k, 3 <= k -> (forall r, a <> r ++ [LF]) -> leading_lf b = 0 ->
     collapse_newlines (a ++ repeat LF k ++ b)
     = collapse_newlines a ++ [LF; LF] ++ collapse_newlines b) /\
  (forall c r, stripAnnoyingLines text = c :: r -> is_space c = false) /\
  (forall r c, stripAnnoyingLines text = r ++ [c] -> is_space c = false) /\
  ~ infix [LF; LF; LF] (stripAnnoyingLines text) /\
  ~ adjacent_empty (split_on LF (stripAnnoyingLines text)) /\
  (~ In CR text -> ~ adjacent_empty (split_lines (stripAnnoyingLines text))).
Proof.
  split; [apply stripAnnoyingLines_stages|].
  split.
  { intros line Hin. apply split_lines_line in Hin as [Hi Hn].
    assert (Hc : is_noise line = false)
      by (eapply stripAnnoyingLines_stretch; eauto).
    split; [exact Hc|].
    split; intros Hp;
      rewrite phrase_is_noise in Hc by (first [now left | now right]);
      discriminate. }
  split; [intros a b k; apply collapse_newlines_run|].
  split; [apply stripAnnoyingLines_trimmed|].
  split; [apply stripAnnoyingLines_trimmed|].
  split; [apply stripAnnoyingLines_no_triple|].
  assert (Hlf : ~ adjacent_empty (split_on LF (stripAnnoyingLines text))).
  { apply trimmed_no_adjacent_empty;
      [apply stripAnnoyingLines_trimmed | apply stripAnnoyingLines_no_triple]. }
  split; [exact Hlf|].
  intros Hcr. rewrite split_lines_no_cr; [exact Hlf|].
  intros Hin. apply Hcr. apply stripAnnoyingLines_In in Hin; [exact Hin|].
  discriminate.
Qed.

Lemma stripAnnoyingLines_clean_witness :
  stripAnnoyingLines (js "Warm up
no reservation, no class.



5 rounds
") = js "Warm up

5 rounds" /\
  ~ adjacent_empty (split_lines (js "Warm up

5 rounds")).
Proof.
  split; [vm_compute; reflexivity|].
  refine (proj2 (proj2 (proj2 (proj2 (proj2 (proj2 (proj2
    (stripAnnoyingLines_clean (js "Warm up
no reservation, no class.



5 rounds
")))))))) _).
  vm_compute. intros [Hc | Hin]; [discriminate|].
  repeat (destruct Hin as [Hc | Hin]; [discriminate|]). exact Hin.
Defined.

(* ================================================================== *)
(** * More on the segments and the rows                                *)
(* ================================================================== *)

Section ChunkCount.

Variable step : nat.
Hypothesis step_pos : 0 < step.

Lemma chunk_loop_length (fuel : nat) : forall (s : str) (i : nat) (chunks : list str),
  length s - i <= fuel ->
  length (chunk_loop fuel step s i chunks)
  = length chunks + (length s - i + (step - 1)) / step.
Proof.
  induction fuel as [|fuel IH]; intros s i chunks Hf; simpl.
  - replace (length s - i) with 0 by lia.
    rewrite Nat.div_small by lia. lia.
  - destruct (i <? length s) eqn:E.
    + apply Nat.ltb_lt in E. rewrite IH by lia.
      rewrite length_app. simpl.
      replace (length s - i + (step - 1)) with ((length s - i - 1) + 1 * step) by lia.
      rewrite Nat.div_add by lia.
      destruct (le_lt_dec step (length s - i)) as [Hge | Hlt].
      * replace (length s - (i + step) + (step - 1)) with (length s - i - 1) by lia.
        lia.
      * replace (length s - (i + step) + (step - 1)) with (step - 1) by lia.
        rewrite !Nat.div_small by lia. lia.
    + apply Nat.ltb_ge in E. replace (length s - i) with 0 by lia.
      rewrite Nat.div_small by lia. lia.
Qed.

Lemma chunk_loop_nonempty (fuel : nat) : forall (s : str) (i : nat) (chunks : list str),
  Forall (fun c => c <> []) chunks ->
  Forall (fun c => c <> []) (chunk_loop fuel step s i chunks).
Proof.
  induction fuel as [|fuel IH]; intros s i chunks Hc; simpl; [exact Hc|].
  destruct (i <? length s) eqn:E; [|exact Hc].
  apply Nat.ltb_lt in E. apply IH. apply Forall_app; split; [exact Hc|].
  constructor; [|constructor].
  unfold slice. intros Hnil.
  apply (f_equal (@length char)) in Hnil.
  rewrite length_firstn, length_skipn in Hnil. simpl in Hnil. lia.
Qed.

End ChunkCount.

Lemma notionRichText_count_parts (s : str) :
  whitespace_only s = false ->
  length (notionRichText (Some s)) = (length s + 1799) / 1800 /\
  Forall (fun seg => content seg <> []) (notionRichText (Some s)).
Proof.
  intros Hw. apply whitespace_only_false in Hw.
  unfold notionRichText. rewrite Hw. split.
  - rewrite length_map, (@chunk_loop_length max) by (unfold max; lia).
    simpl length. rewrite Nat.sub_0_r. reflexivity.
  - apply Forall_map. simpl.
    apply (@chunk_loop_nonempty max); [unfold max; lia | constructor].
Qed.

(** X7: a text that is not white space only is cut into as few segments
    as its length allows, one per started 1800 code units, and none of
    them is empty. *)
Theorem notionRichText_count (s : str) :
  whitespace_only s = false ->
  length (notionRichText (Some s)) = (length s + 1799) / 1800 /\
  Forall (fun seg => content seg <> []) (notionRichText (Some s)).
Proof.
  intros Hw. apply whitespace_only_false in Hw.
  unfold notionRichText. rewrite Hw. split.
  - rewrite length_map, (@chunk_loop_length max) by (unfold max; lia).
    simpl length. rewrite Nat.sub_0_r. reflexivity.
  - apply Forall_map. simpl.
    apply (@chunk_loop_nonempty max); [unfold max; lia | constructor].
Qed.

Lemma notionRichText_count_witness :
  length (notionRichText (Some (repeat 97%N 4000))) = 3.
Proof.
  refine (eq_trans (proj1 (@notionRichText_count (repeat 97%N 4000) eq_refl)) _).
  rewrite repeat_length. reflexivity.
Defined.

Lemma trimmed_whitespace_only (s : str) :
  trimmed s -> whitespace_only s = true -> s = [].
Proof.
  intros [Hl _] Hw. destruct s as [|c r]; [reflexivity|].
  simpl in Hw. rewrite (Hl c r eq_refl) in Hw. discriminate.
Qed.

Lemma segments_text_trimmed (s : str) :
  trimmed s -> segments_text (notionRichText (Some s)) = s.
Proof.
  intros Ht. apply location_reads_back.
  now apply trimmed_whitespace_only.
Qed.

Lemma length_slice_le (s : str) (a b : nat) : length (slice s a b) <= b - a.
Proof. unfold slice. rewrite length_firstn. lia. Qed.

(** X8: the row [createWodRow] posts for an entry whose location and body
    are trimmed, as those of the parser are, on a date that starts with a
    character that is no white space: location and body read back from
    their segments exactly; the title is exactly one segment, the first
    180 code units of date, location and program joined by dashes; the
    type is the program, or [WOD] when there is none, and never empty. *)
Theorem wod_row_faithful (isoDate : str) (x : entry) (c : char) (r : str) :
  isoDate = c :: r -> is_space c = false ->
  trimmed (loc x) -> trimmed (body x) ->
  let w := wod_row isoDate x in
  row_Date w = isoDate /\
  segments_text (row_Location w) = loc x /\
  segments_text (row_WOD w) = body x /\
  segments_text (row_Name w)
  = firstn 180 (isoDate ++ dash ++ loc x ++ dash ++ program x) /\
  length (row_Name w) = 1 /\
  row_Type w <> [] /\
  (program x <> [] -> row_Type w = program x) /\
  (program x = [] -> row_Type w = js "WOD").
Proof.
  intros Hiso Hc Hl Hb w. unfold w, wod_row.
  cbn [row_Date row_Location row_WOD row_Name row_Type].
  set (name := slice (isoDate ++ dash ++ loc x ++ dash ++ program x) 0 180).
  assert (Hname : name = firstn 180 (isoDate ++ dash ++ loc x ++ dash ++ program x))
    by reflexivity.
  assert (Hw : whitespace_only name = false).
  { rewrite Hname, Hiso. simpl. now rewrite Hc. }
  split; [reflexivity|].
  split; [now apply segments_text_trimmed|].
  split; [now apply segments_text_trimmed|].
  split; [rewrite <- Hname; now apply notionRichText_text|].
  split.
  { rewrite (proj1 (notionRichText_count_parts name Hw)).
    assert (Hlen : 1 <= length name <= 180).
    { split; [rewrite Hname, Hiso; simpl; lia|].
      unfold name. pose proof (length_slice_le
        (isoDate ++ dash ++ loc x ++ dash ++ program x) 0 180). lia. }
    replace (length name + 1799) with ((length name - 1) + 1 * 1800) by lia.
    rewrite Nat.div_add by lia. rewrite Nat.div_small by lia. reflexivity. }
  destruct (program x) as [|p ps]; cbn [is_empty is_nil].
  - split; [discriminate|]. split; [congruence | reflexivity].
  - split; [discriminate|]. split; [reflexivity | discriminate].
Qed.

Lemma wod_row_faithful_witness :
  segments_text
    (row_WOD (wod_row (js "2026-02-01")
                (mkEntry (js "01/02/2026") (js "Gym A") (js "CrossFit")
                   (js "Warm up"))))
  = js "Warm up".
Proof.
  refine (proj1 (proj2 (proj2
    (@wod_row_faithful (js "2026-02-01")
       (mkEntry (js "01/02/2026") (js "Gym A") (js "CrossFit") (js "Warm up"))
       50%N (js "026-02-01") eq_refl eq_refl _ _)))).
  - split.
    + intros c r [= <- _]. reflexivity.
    + intros r c Hr. change (js "Gym A") with (js "Gym " ++ [65%N]) in Hr.
      apply app_inj_tail in Hr as [_ <-]. reflexivity.
  - split.
    + intros c r [= <- _]. reflexivity.
    + intros r c Hr. change (js "Warm up") with (js "Warm u" ++ [112%N]) in Hr.
      apply app_inj_tail in Hr as [_ <-]. reflexivity.
Defined.

(* ================================================================== *)
(** * More on the runs                                                 *)
(* ================================================================== *)

Section Runs.

Context {W : Type} `{Notion W}.

(** The loop in every outcome: the creates issued are those of the first
    [k] new entries, all of them when it completes, and at least the one
    that failed when it raises. *)
Lemma sync_loop_any (databaseId isoDate : str) (keys : ListSet.set str)
    (entries : list entry) :
  forall (c s : nat) (w : W) (log : list request) r w' log',
  sync_loop databaseId isoDate keys entries c s (w, log) = (r, (w', log')) ->
  exists k,
    k <= length (filter (is_new keys) entries) /\
    log' = log ++ map (create_request databaseId isoDate)
                    (firstn k (filter (is_new keys) entries)) /\
    ((exists cs, r = Ok cs /\ k = length (filter (is_new keys) entries)) \/
     (1 <= k /\ exists status, r = Throw (NotionApiError status))).
Proof.
  induction entries as [|e rest IH]; intros c s w log r w' log' Hrun.
  - injection Hrun as <- <- <-. exists 0. simpl. rewrite app_nil_r.
    split; [lia|]. split; [reflexivity|]. left. now eexists.
  - cbn [sync_loop] in Hrun.
    assert (Em : ListSet.set_mem str_eq_dec (entry_key e) keys
                 = negb (is_new keys e))
      by (unfold is_new; now rewrite negb_involutive).
    rewrite Em in Hrun. cbn [filter].
    destruct (is_new keys e); cbn [negb] in Hrun.
    + unfold bind, createWodRow in Hrun. rewrite notionReq_run in Hrun.
      destruct (fst (serve (CreatePage databaseId (wod_row isoDate e)) w))
        as [json | status]; cbn [outcome] in Hrun.
      * apply IH in Hrun as (k & Hk & -> & Hr).
        exists (S k). cbn [length firstn map].
        split; [lia|]. split; [now rewrite <- app_assoc|].
        destruct Hr as [[cs [-> ->]] | [Hk1 [status ->]]].
        -- left. now eexists.
        -- right. split; [lia | now eexists].
      * injection Hrun as <- <- <-. exists 1. cbn [length firstn map].
        split; [lia|]. split; [reflexivity|].
        right. split; [lia | now eexists].
    + apply IH in Hrun. exact Hrun.
Qed.




End Runs.




(** ** Against the store served from memory *)

Lemma getChildDatabaseId_store (pageId : str) (w : store) (log : list request) :
  getChildDatabaseId pageId (w, log)
  = (match find (fun b => str_eqb (block_type b) (js "child_database"))
             (firstn 100 (store_children w)) with
     | Some db => Ok (block_id db)
     | None => Throw NoChildDatabase
     end,
     (w, log ++ [GetBlockChildren pageId 100 None])).
Proof.
  unfold getChildDatabaseId, bind. rewrite notionReq_run.
  cbn [serve store_notion store_serve fst snd outcome results offset_of].
  rewrite skipn_O.
  destruct (find _ (firstn 100 (store_children w))); reflexivity.
Qed.

Lemma find_first (f : block -> bool) (before after : list block) (db : block) :
  (forall b, In b before -> f b = false) -> f db = true ->
  find f (before ++ db :: after) = Some db.
Proof.
  intros Hb Hd. induction before as [|b before IH]; simpl.
  - now rewrite Hd.
  - rewrite (Hb b (or_introl eq_refl)). apply IH.
    intros x Hx. apply Hb. now right.
Qed.

Lemma find_none (f : block -> bool) (bs : list block) :
  (forall b, In b bs -> f b = false) -> find f bs = None.
Proof.
  induction bs as [|b bs IH]; intros Hb; simpl; [reflexivity|].
  rewrite (Hb b (or_introl eq_refl)). apply IH.
  intros x Hx. apply Hb. now right.
Qed.

Lemma find_in_first_page (before after : list block) (db : block) :
  length before < 100 ->
  (forall b, In b before -> str_eqb (block_type b) (js "child_database") = false) ->
  block_type db = js "child_database" ->
  find (fun b => str_eqb (block_type b) (js "child_database"))
    (firstn 100 (before ++ db :: after)) = Some db.
Proof.
  intros Hlen Hb Hd.
  rewrite firstn_app.
  rewrite firstn_all2 by lia.
  replace (100 - length before) with (S (99 - length before)) by lia.
  cbn [firstn].
  apply find_first; [exact Hb|]. rewrite Hd. apply str_eqb_refl.
Qed.

(** X10: container discovery against a page served in pages of a
    hundred: one request is sent; when the first block of type
    [child_database] of the page is among its first hundred children its
    id is returned, and when none of the first hundred children is of
    that type the lookup raises, whatever comes after them. *)
Theorem getChildDatabaseId_first_page (pageId : str) (w : store)
    (log : list request) :
  snd (getChildDatabaseId pageId (w, log))
  = (w, log ++ [GetBlockChildren pageId 100 None]) /\
  (forall before db after,
     store_children w = before ++ db :: after ->
     length before < 100 ->
     (forall b, In b before ->
        str_eqb (block_type b) (js "child_database") = false) ->
     block_type db = js "child_database" ->
     fst (getChildDatabaseId pageId (w, log)) = Ok (block_id db)) /\
  ((forall b, In b (firstn 100 (store_children w)) ->
      str_eqb (block_type b) (js "child_database") = false) ->
   fst (getChildDatabaseId pageId (w, log)) = Throw NoChildDatabase).
Proof.
  rewrite getChildDatabaseId_store. cbn [fst snd].
  split; [reflexivity|]. split.
  - intros before db after Hch Hlen Hb Hd.
    now rewrite Hch, find_in_first_page.
  - intros Hnone. now rewrite find_none.
Qed.

Lemma getChildDatabaseId_first_page_witness :
  fst (run (getChildDatabaseId (js "page-1")) fresh_store) = Ok (js "db-1").
Proof.
  refine (proj1 (proj2 (@getChildDatabaseId_first_page (js "page-1") fresh_store []))
            [] database_block [] eq_refl _ _ eq_refl).
  - simpl. lia.
  - intros b [].
Defined.

(** X11: a run never changes or removes what the store holds: in every
    outcome the children of the page are as before and the rows are the
    rows of before followed by the rows the run created, each dated with
    the day of the run, of a type that is not empty and with the fixed
    source address. *)
Theorem main_only_appends (e : env) (w : store) (log : list request) :
  let w' := fst (snd (main e (w, log))) in
  store_children w' = store_children w /\
  exists added,
    store_rows w' = store_rows w ++ added /\
    Forall (fun r => row_Date r = today e /\ row_Type r <> [] /\
                     row_Source r = js "https://vfuae.com/wod/") added.
Proof.
  assert (G : exists added,
            fst (snd (main e (w, log)))
            = {| store_children := store_children w;
                 store_rows := store_rows w ++ added |} /\
            Forall (fun r => row_Date r = today e /\ row_Type r <> [] /\
                             row_Source r = js "https://vfuae.com/wod/") added).
  { assert (Hsame : exists added,
              w = {| store_children := store_children w;
                     store_rows := store_rows w ++ added |} /\
              Forall (fun r => row_Date r = today e /\ row_Type r <> [] /\
                               row_Source r = js "https://vfuae.com/wod/") added).
    { exists []. rewrite app_nil_r. split; [now destruct w | constructor]. }
    unfold main.
    destruct (falsy (NOTION_TOKEN e)); [exact Hsame|].
    destruct (falsy (NOTION_PAGE_ID e)); [exact Hsame|].
    destruct (falsy (WOD_MARKDOWN e)); [exact Hsame|].
    unfold bind at 1. unfold lift.
    destruct (parseWodPage (show (WOD_MARKDOWN e)) (ddmmyyyyFromISO (today e)))
      as [entries | err]; [|exact Hsame].
    destruct (is_nil entries); [exact Hsame|].
    unfold bind at 1. rewrite getChildDatabaseId_store.
    destruct (find _ (firstn 100 (store_children w))) as [db|]; [|exact Hsame].
    unfold bind at 1. rewrite queryExistingForDate_run.
    cbn [serve store_notion store_serve fst snd outcome rmap].
    unfold bind. rewrite sync_loop_store. cbn [ret fst snd store_children store_rows].
    eexists. split; [reflexivity|].
    apply Forall_map, Forall_forall. intros x _.
    unfold wod_row. cbn [row_Date row_Type row_Source].
    split; [reflexivity|]. split; [|reflexivity].
    destruct (program x); cbn [is_empty is_nil]; discriminate. }
  destruct G as [added [-> Hadd]]. cbv zeta. cbn [store_children store_rows].
  split; [reflexivity|]. now exists added.
Qed.

(** X12: a run against the store completes when the configuration is
    present, some entry is of the day, and the first database block of
    the page is among its first hundred children.  It reports as created
    the entries whose key is not among the keys of the first hundred rows
    of the day and as skipped the others, appends the rows of the created
    entries in their order, and sends the lookup, the query and these
    creates, in that order, to that database. *)
Theorem main_on_store (e : env) (w : store) (log : list request)
    (entries : list entry) (before after : list block) (db : block) :
  configured e ->
  parseWodPage (show (WOD_MARKDOWN e)) (ddmmyyyyFromISO (today e)) = Ok entries ->
  entries <> [] ->
  store_children w = before ++ db :: after ->
  length before < 100 ->
  (forall b, In b before -> str_eqb (block_type b) (js "child_database") = false) ->
  block_type db = js "child_database" ->
  let keys := existing_keys (firstn 100 (matching (today e) w)) in
  let new := filter (is_new keys) entries in
  main e (w, log)
  = (Ok {| sum_isoDate := today e;
           created := length new;
           skipped := length entries - length new;
           total := length entries |},
     ({| store_children := store_children w;
         store_rows := store_rows w ++ map (wod_row (today e)) new |},
      log ++ requests_of (show (NOTION_PAGE_ID e)) (block_id db) (today e) new)).
Proof.
  intros Hc Hparse Hne Hch Hlen Hb Hd keys new.
  assert (Hfind : find (fun b => str_eqb (block_type b) (js "child_database"))
                    (firstn 100 (store_children w)) = Some db)
    by (rewrite Hch; now apply find_in_first_page).
  rewrite (main_store w log Hc Hparse Hne Hfind). fold keys. fold new.
  pose proof (filter_partition_length (is_new keys) entries) as Hp.
  fold new in Hp.
  replace (length (filter (fun x => negb (is_new keys x)) entries))
    with (length entries - length new) by lia.
  reflexivity.
Qed.

Lemma main_on_store_witness :
  fst (run (main (sample_env two_gyms)) fresh_store)
  = Ok {| sum_isoDate := js "2026-02-01"; created := 2; skipped := 0; total := 2 |}.
Proof.
  unfold run.
  rewrite (@main_on_store (sample_env two_gyms) fresh_store []
             [mkEntry (js "01/02/2026") (js "Gym A") (js "CrossFit")
                (js "Warm up
5 rounds");
              mkEntry (js "01/02/2026") (js "Gym B") (js "Open Gym")
                (js "Free lift")]
             [] [] database_block).
  - reflexivity.
  - repeat split.
  - vm_compute. reflexivity.
  - discriminate.
  - reflexivity.
  - simpl. lia.
  - intros b [].
  - reflexivity.
Defined.

Lemma matching_after_run (isoDate : str) (w : store) (es : list entry) :
  matching isoDate
    {| store_children := store_children w;
       store_rows := store_rows w ++ map (wod_row isoDate) es |}
  = matching isoDate w ++ map page_of_row (map (wod_row isoDate) es).
Proof.
  unfold matching. cbn [store_rows]. rewrite filter_app, map_app.
  f_equal. f_equal. apply filter_all.
  intros r Hr. apply in_map_iff in Hr as [x [<- _]]. apply str_eqb_refl.
Qed.

(** X13: a second run converges.  Against the store, when every entry of
    the day names its program and the rows of the day, those of the
    entries included, fit the one page of a hundred the query reads, a
    run that follows a completed run on the same input creates nothing,
    skips every entry and leaves the store as it found it, whatever the
    store held before the first run. *)
Theorem rerun_creates_nothing (e : env) (w : store) (entries : list entry)
    (db : block) :
  configured e ->
  parseWodPage (show (WOD_MARKDOWN e)) (ddmmyyyyFromISO (today e)) = Ok entries ->
  entries <> [] ->
  (forall x, In x entries -> program x <> []) ->
  find (fun b => str_eqb (block_type b) (js "child_database"))
    (firstn 100 (store_children w)) = Some db ->
  length (matching (today e) w) + length entries <= 100 ->
  let first := run (main e) w in
  let second := run (main e) (fst (snd first)) in
  (exists s, fst first = Ok s /\ created s + skipped s = length entries) /\
  fst second
  = Ok {| sum_isoDate := today e; created := 0; skipped := length entries;
          total := length entries |} /\
  fst (snd second) = fst (snd first).
Proof.
  intros Hc Hparse Hne Hprog Hfind Hlen. unfold run. cbv zeta.
  assert (Htrim : forall x, In x entries ->
                    whitespace_only (loc x) = true -> loc x = []).
  { unfold parseWodPage, parse_lines in Hparse.
    eapply parse_loop_loc_trimmed; [|exact Hparse]. intros x []. }
  rewrite (main_store w [] Hc Hparse Hne Hfind). cbn [fst snd].
  set (keys0 := existing_keys (firstn 100 (matching (today e) w))).
  set (new := filter (is_new keys0) entries).
  split.
  { eexists. split; [reflexivity|]. cbn [created skipped].
    apply filter_partition_length. }
  set (w1 := {| store_children := store_children w;
                store_rows := store_rows w ++ map (wod_row (today e)) new |}).
  assert (Hnew : length new <= length entries) by apply filter_length_le.
  rewrite (@main_store e w1 [] entries db Hc Hparse Hne Hfind).
  assert (Hm : matching (today e) w1
               = matching (today e) w
                 ++ map page_of_row (map (wod_row (today e)) new))
    by apply matching_after_run.
  rewrite Hm.
  rewrite firstn_all2 by (rewrite length_app, !length_map; lia).
  set (keys1 := existing_keys
                  (matching (today e) w
                   ++ map page_of_row (map (wod_row (today e)) new))).
  assert (Hseen : forall x, In x entries -> is_new keys1 x = false).
  { intros x Hx. unfold is_new. apply negb_false_iff, set_mem_In.
    apply existing_keys_In.
    destruct (is_new keys0 x) eqn:E0.
    - exists (page_of_row (wod_row (today e) x)). split.
      + apply in_or_app. right. apply in_map, in_map.
        apply filter_In. split; assumption.
      + apply row_key_reads_back; auto.
    - unfold is_new in E0. apply negb_false_iff, set_mem_In in E0.
      apply existing_keys_In in E0 as [p [Hp Hk]].
      rewrite firstn_all2 in Hp by lia.
      exists p. split; [apply in_or_app; now left | exact Hk]. }
  rewrite (filter_none _ _ Hseen).
  rewrite (filter_all (fun x => negb (is_new keys1 x)) entries)
    by (intros x Hx; now rewrite (Hseen x Hx)).
  cbn [fst snd length map]. split; [reflexivity|].
  unfold w1. cbn [store_children store_rows]. now rewrite app_nil_r.
Qed.

Lemma rerun_creates_nothing_witness :
  fst (run (main (sample_env two_gyms))
         (fst (snd (run (main (sample_env two_gyms)) fresh_store))))
  = Ok {| sum_isoDate := js "2026-02-01"; created := 0; skipped := 2; total := 2 |}.
Proof.
  refine (proj1 (proj2
    (@rerun_creates_nothing (sample_env two_gyms) fresh_store
       [mkEntry (js "01/02/2026") (js "Gym A") (js "CrossFit")
          (js "Warm up
5 rounds");
        mkEntry (js "01/02/2026") (js "Gym B") (js "Open Gym")
          (js "Free lift")]
       database_block _ _ _ _ _ _))).
  - repeat split.
  - vm_compute. reflexivity.
  - discriminate.
  - intros x [<- | [<- | []]]; discriminate.
  - reflexivity.
  - simpl. lia.
Defined.

Lemma two_runs_idempotent_witness :
  fst (run (main (sample_env two_gyms)) fresh_store)
  = Ok {| sum_isoDate := js "2026-02-01"; created := 2; skipped := 0; total := 2 |}
  /\
  fst (run (main (sample_env two_gyms))
         (fst (snd (run (main (sample_env two_gyms)) fresh_store))))
  = Ok {| sum_isoDate := js "2026-02-01"; created := 0; skipped := 2; total := 2 |}.
Proof.
  destruct (@two_runs_idempotent (sample_env two_gyms) fresh_store
       [mkEntry (js "01/02/2026") (js "Gym A") (js "CrossFit")
          (js "Warm up
5 rounds");
        mkEntry (js "01/02/2026") (js "Gym B") (js "Open Gym")
          (js "Free lift")]
       database_block) as (H1 & H2 & _).
  - repeat split.
  - vm_compute. reflexivity.
  - discriminate.
  - simpl. lia.
  - intros x [<- | [<- | []]]; discriminate.
  - reflexivity.
  - reflexivity.
  - split; [exact H1 | exact H2].
Defined.

(* ================================================================== *)
(** * More on the diagnostic lister                                    *)
(* ================================================================== *)

Lemma types_get_bump (t u : str) (m : list (str * nat)) :
  types_get t (InspectPage.bump u m)
  = if str_eqb u t
    then Some (match types_get t m with Some v => v + 1 | None => 1 end)
    else types_get t m.
Proof.
  induction m as [|[k v] m IH]; simpl.
  - destruct (str_eqb u t); reflexivity.
  - destruct (str_eqb k u) eqn:Eku; simpl.
    + apply str_eqb_eq in Eku; subst k.
      destruct (str_eqb u t); reflexivity.
    + destruct (str_eqb k t) eqn:Ekt.
      * apply str_eqb_eq in Ekt; subst k.
        destruct (str_eqb u t) eqn:Eut; [|reflexivity].
        apply str_eqb_eq in Eut; subst u.
        rewrite str_eqb_refl in Eku. discriminate.
      * exact IH.
Qed.

Lemma count_type_snoc (t : str) (bs : list block) (b : block) :
  count_type t (bs ++ [b])
  = count_type t bs + (if str_eqb (block_type b) t then 1 else 0).
Proof.
  unfold count_type. rewrite filter_app, length_app. simpl.
  destruct (str_eqb (block_type b) t); reflexivity.
Qed.

(** X15: what the loop of the lister has accumulated after any sequence
    of blocks: [n] is their number, [types] gives for each type the
    number of blocks of that type and nothing for a type that did not
    occur, and [sample] holds the first forty blocks in order, each text
    cut to 120 code units. *)
Theorem listing_of_blocks (bs : list block) :
  let l := fold_left InspectPage.visit bs (InspectPage.mkListing 0 [] []) in
  InspectPage.n l = length bs /\
  (forall t, types_get t (InspectPage.types l)
             = if count_type t bs =? 0 then None else Some (count_type t bs)) /\
  InspectPage.sample l = map sample_of (firstn 40 bs) /\
  Forall (fun s => length (snd s) <= 120) (InspectPage.sample l).
Proof.
  cbv zeta. induction bs as [|b bs IH] using rev_ind.
  - repeat split; constructor.
  - rewrite fold_left_app. cbn [fold_left].
    destruct IH as (Hn & Ht & Hs & Hb).
    set (acc := fold_left InspectPage.visit bs (InspectPage.mkListing 0 [] [])) in *.
    unfold InspectPage.visit.
    cbn [InspectPage.n InspectPage.types InspectPage.sample].
    assert (Hsample :
              (if length (InspectPage.sample acc) <? 40
               then InspectPage.sample acc
                    ++ [(block_id b, block_type b,
                         slice (InspectPage.blockPlainText b) 0 120)]
               else InspectPage.sample acc)
              = map sample_of (firstn 40 (bs ++ [b]))).
    { rewrite Hs, length_map, length_firstn, firstn_app.
      destruct (Nat.min 40 (length bs) <? 40) eqn:E.
      - apply Nat.ltb_lt in E.
        rewrite firstn_all2 by lia.
        replace (40 - length bs) with (S (39 - length bs)) by lia.
        rewrite firstn_cons, firstn_nil. now rewrite map_app.
      - apply Nat.ltb_ge in E.
        replace (40 - length bs) with 0 by lia.
        cbn [firstn]. now rewrite app_nil_r. }
    split; [rewrite Hn, length_app; simpl; lia|].
    split.
    { intros t. rewrite types_get_bump, Ht, count_type_snoc.
      destruct (str_eqb (block_type b) t).
      - destruct (count_type t bs) as [|c]; simpl; reflexivity.
      - now rewrite Nat.add_0_r. }
    split; [exact Hsample|].
    rewrite Hsample. apply Forall_map, Forall_forall. intros x _.
    unfold sample_of. cbn [snd].
    pose proof (length_slice_le (InspectPage.blockPlainText x) 0 120). lia.
Qed.

(** X16: against a page served in pages of a hundred, the lister with
    fuel for every page returns what its loop accumulates over all the
    children of the page, in order, so that [n] is their number; it
    changes nothing in the store. *)
Theorem inspect_lists_every_child (fuel : nat) (e : env) (w : store)
    (log : list request) :
  falsy (NOTION_TOKEN e) = false ->
  falsy (NOTION_PAGE_ID e) = false ->
  length (store_children w) < fuel * 100 ->
  exists l log',
    InspectPage.main fuel e (w, log) = (Ok l, (w, log')) /\
    l = fold_left InspectPage.visit (store_children w)
          (InspectPage.mkListing 0 [] []) /\
    InspectPage.n l = length (store_children w).
Proof.
  intros Ht Hp Hf. unfold InspectPage.main. rewrite Ht, Hp.
  destruct (@list_loop_complete (show (NOTION_PAGE_ID e)) w fuel None
              (InspectPage.mkListing 0 [] []) log) as [log' Hl].
  - destruct fuel; [simpl in Hf|]; lia.
  - simpl. lia.
  - cbn [offset_of] in Hl. rewrite skipn_O in Hl.
    eexists _, log'. split; [exact Hl|]. split; [reflexivity|].
    rewrite visit_count. reflexivity.
Qed.

Lemma inspect_lists_every_child_witness :
  exists l log',
    InspectPage.main 2 (sample_env two_gyms) (crowded_page, [])
    = (Ok l, (crowded_page, log')) /\
    InspectPage.n l = 101.
Proof.
  destruct (@inspect_lists_every_child 2 (sample_env two_gyms) crowded_page [])
    as (l & log' & Hrun & _ & Hn).
  - reflexivity.
  - reflexivity.
  - vm_compute. lia.
  - exists l, log'. split; [exact Hrun | exact Hn].
Defined.

(* ================================================================== *)
(** * The configuration file                                           *)
(* ================================================================== *)

Lemma falsy_false (v : option str) :
  falsy v = false <-> exists s, v = Some s /\ s <> [].
Proof.
  split.
  - destruct v as [[|c r]|]; simpl; try discriminate.
    intros _. eexists. split; [reflexivity | discriminate].
  - intros [x [-> Hx]]. destruct x; [congruence | reflexivity].
Qed.

(** A line changes the value of a name only if it defines that name and
    the name has no value yet. *)
Lemma load_line_other (p : process_env) (line k : str) :
  defines line <> Some k \/ falsy (p k) = false ->
  load_line p line k = p k.
Proof.
  intros Hk. unfold load_line, defines in *.
  destruct (match_env_line line) as [[key val]|]; [|reflexivity].
  cbn [option_map fst] in Hk.
  destruct (falsy (p key)) eqn:Ef; [|reflexivity].
  unfold set_var. destruct (str_eqb k key) eqn:E; [|reflexivity].
  apply str_eqb_eq in E; subst key.
  destruct Hk as [Hk | Hk]; congruence.
Qed.

Lemma load_lines_set (lines : list str) : forall (p : process_env) (k : str),
  falsy (p k) = false -> fold_left load_line lines p k = p k.
Proof.
  induction lines as [|l lines IH]; intros p k Hk; [reflexivity|].
  cbn [fold_left].
  assert (Hl : load_line p l k = p k) by (apply load_line_other; now right).
  rewrite IH; [exact Hl | now rewrite Hl].
Qed.

Lemma load_lines_undefined (lines : list str) : forall (p : process_env) (k : str),
  (forall l, In l lines -> defines l <> Some k) ->
  fold_left load_line lines p k = p k.
Proof.
  induction lines as [|l lines IH]; intros p k Hk; [reflexivity|].
  cbn [fold_left]. rewrite IH by (intros x Hx; apply Hk; now right).
  apply load_line_other. left. apply Hk. now left.
Qed.

(** X17: [loadEnv] never replaces a value: a variable that is set and not
    empty in the process environment keeps its value whatever the file
    holds; a variable no line of the file defines is left as it is; and
    without a file nothing changes. *)
Theorem loadEnv_keeps_environment (file : option str) (p : process_env) (k : str) :
  (falsy (p k) = false -> loadEnv file p k = p k) /\
  (forall raw, file = Some raw ->
     (forall l, In l (split_lines raw) -> defines l <> Some k) ->
     loadEnv file p k = p k) /\
  (file = None -> loadEnv file p = p).
Proof.
  split; [|split].
  - intros Hk. destruct file as [raw|]; [|reflexivity].
    now apply load_lines_set.
  - intros raw -> Hk. now apply load_lines_undefined.
  - intros ->. reflexivity.
Qed.

Lemma loadEnv_keeps_environment_witness :
  loadEnv (Some (js "NOTION_TOKEN=from-file"))
    (fun k => if str_eqb k (js "NOTION_TOKEN") then Some (js "secret") else None)
    (js "NOTION_TOKEN")
  = Some (js "secret").
Proof.
  refine (eq_trans
    (proj1 (@loadEnv_keeps_environment (Some (js "NOTION_TOKEN=from-file"))
              (fun k => if str_eqb k (js "NOTION_TOKEN")
                        then Some (js "secret") else None)
              (js "NOTION_TOKEN")) eq_refl) _).
  reflexivity.
Defined.

Lemma to_well_formed_verbatim (v : str) :
  stored_verbatim v = true -> to_well_formed v = v.
Proof.
  unfold stored_verbatim.
  induction v as [|c r IH]; [reflexivity|]. cbn [forallb to_well_formed].
  intros Hv. apply andb_true_iff in Hv as [Hc Hr].
  apply andb_true_iff in Hc as [Hc Hl]. apply andb_true_iff in Hc as [_ Hh].
  apply negb_true_iff in Hh, Hl. rewrite Hh, Hl. now rewrite IH.
Qed.

(** A value without U+0000 and without surrogates is read back as it was
    assigned. *)
Lemma env_value_verbatim (v : str) :
  stored_verbatim v = true -> env_value v = v.
Proof.
  intros Hv. unfold env_value. rewrite to_well_formed_verbatim by exact Hv.
  unfold stored_verbatim in Hv.
  induction v as [|c r IH]; [reflexivity|]. cbn [forallb take_while] in *.
  apply andb_true_iff in Hv as [Hc Hr].
  apply andb_true_iff in Hc as [Hc _]. apply andb_true_iff in Hc as [Hz _].
  rewrite Hz. now rewrite IH.
Qed.

(** Nothing is read back exactly when the value assigned is empty or
    starts with U+0000. *)
Lemma env_value_nil_iff (v : str) :
  env_value v = [] <-> v = [] \/ exists r, v = 0%N :: r.
Proof.
  unfold env_value. destruct v as [|c r]; [cbn; tauto|].
  destruct (N.eqb_spec c 0) as [-> | Hc].
  - cbn. split; [intros _; right; now eexists | reflexivity].
  - split; [|intros [H | [r' [= H _]]]; [discriminate | contradiction]].
    intros Hv. exfalso. cbn [to_well_formed] in Hv.
    assert (Hn : forall x s, (x =? 0)%N = false ->
                   take_while (fun c => negb (c =? 0)%N) (x :: s) <> [])
      by (intros x s Hx; cbn [take_while]; rewrite Hx; discriminate).
    apply N.eqb_neq in Hc.
    destruct (is_high_surrogate c).
    + destruct r as [|d r'].
      * revert Hv. now apply Hn.
      * destruct (is_low_surrogate d); revert Hv; now apply Hn.
    + destruct (is_low_surrogate c); revert Hv; now apply Hn.
Qed.

(** A line leaves a name without value exactly when the name had none
    and the line gives it none. *)
Lemma load_line_falsy (p : process_env) (line k : str) :
  falsy (load_line p line k) = true <->
  falsy (p k) = true /\
  forall v, match_env_line line = Some (k, v) -> env_value (unquote v) = [].
Proof.
  unfold load_line.
  destruct (match_env_line line) as [[key val]|]; [|intuition discriminate].
  destruct (str_eqb k key) eqn:E.
  - apply str_eqb_eq in E; subst key.
    destruct (falsy (p k)) eqn:Ef.
    + unfold set_var. rewrite str_eqb_refl. split.
      * intros Hv. split; [reflexivity|]. intros v [= <-].
        destruct (env_value (unquote val)); [reflexivity | discriminate].
      * intros [_ Hv]. now rewrite (Hv val eq_refl).
    + rewrite Ef. intuition discriminate.
  - assert (Hk : (if falsy (p key) then set_var key (unquote val) p else p) k = p k).
    { destruct (falsy (p key)); [|reflexivity]. unfold set_var. now rewrite E. }
    rewrite Hk. split; [|tauto].
    intros Hf. split; [exact Hf|]. intros v [= -> _].
    rewrite str_eqb_refl in E. discriminate.
Qed.

Lemma load_lines_falsy (lines : list str) : forall (p : process_env) (k : str),
  falsy (fold_left load_line lines p k) = true <->
  falsy (p k) = true /\
  forall l v, In l lines -> match_env_line l = Some (k, v) ->
              env_value (unquote v) = [].
Proof.
  induction lines as [|l lines IH]; intros p k; cbn [fold_left].
  - split; [intros Hf; split; [exact Hf | intros ? ? []] | tauto].
  - rewrite IH, load_line_falsy. split.
    + intros [[Hf Hl] Hrest]. split; [exact Hf|].
      intros l' v [<- | Hin]; [apply Hl | now apply Hrest].
    + intros [Hf Hall]. split; [split; [exact Hf|]|].
      * intros v. apply Hall. now left.
      * intros l' v Hin. apply Hall. now right.
Qed.

(** X18: for a variable that is unset or empty, the first line of the
    file that leaves a value in the environment decides: the variable
    then reads as the value of that line, quotes taken off, as the
    environment stores it (up to its first U+0000, a surrogate without
    partner as U+FFFD), which is the value itself when it holds neither;
    later lines that define the variable again are not read into it.  A
    line leaves no value when what the environment stores of it is
    empty. *)
Theorem loadEnv_first_definition (raw : str) (p : process_env)
    (pre post : list str) (line k val : str) :
  split_lines raw = pre ++ line :: post ->
  falsy (p k) = true ->
  (forall l v, In l pre -> match_env_line l = Some (k, v) ->
               env_value (unquote v) = []) ->
  match_env_line line = Some (k, val) ->
  env_value (unquote val) <> [] ->
  loadEnv (Some raw) p k = Some (env_value (unquote val)) /\
  (stored_verbatim (unquote val) = true ->
   loadEnv (Some raw) p k = Some (unquote val)).
Proof.
  intros Hs Hf Hpre Hm Hv.
  assert (Hk : loadEnv (Some raw) p k = Some (env_value (unquote val))).
  { unfold loadEnv. rewrite Hs, fold_left_app. cbn [fold_left].
    set (p1 := fold_left load_line pre p).
    assert (H1 : falsy (p1 k) = true) by (apply load_lines_falsy; now split).
    assert (H2 : load_line p1 line k = Some (env_value (unquote val))).
    { unfold load_line. rewrite Hm, H1. unfold set_var.
      now rewrite str_eqb_refl. }
    rewrite load_lines_set; [exact H2|].
    rewrite H2. apply falsy_false. now eexists. }
  split; [exact Hk|].
  intros Hplain. rewrite Hk. now rewrite env_value_verbatim.
Qed.

Lemma loadEnv_first_definition_witness :
  loadEnv (Some (js "# keys
NOTION_TOKEN=first
NOTION_TOKEN=second")) (fun _ => None) (js "NOTION_TOKEN")
  = Some (js "first").
Proof.
  refine (proj2 (@loadEnv_first_definition (js "# keys
NOTION_TOKEN=first
NOTION_TOKEN=second") (fun _ => None) [js "# keys"]
            [js "NOTION_TOKEN=second"] (js "NOTION_TOKEN=first")
            (js "NOTION_TOKEN") (js "first") eq_refl eq_refl _ eq_refl _) eq_refl).
  - intros l v [<- | []]. vm_compute. discriminate.
  - vm_compute. discriminate.
Defined.

(** A value is cut at its first U+0000 when the environment takes it, so
    a line whose value starts with one leaves the variable empty. *)
Example loadEnv_cuts_at_nul :
  loadEnv (Some (js "A=one" ++ [0%N] ++ js "two")) (fun _ => None) (js "A")
  = Some (js "one") /\
  loadEnv (Some (js "A=" ++ [0%N] ++ js "two")) (fun _ => None) (js "A")
  = Some [].
Proof. split; vm_compute; reflexivity. Qed.

Lemma drop_while_app (p : char -> bool) (a b : str) :
  forallb p a = true -> (forall c r, b = c :: r -> p c = false) ->
  drop_while p (a ++ b) = b.
Proof.
  intros Ha Hb. induction a as [|x a IH]; simpl in *.
  - now apply drop_while_fixed.
  - apply andb_true_iff in Ha as [Hx Ha]. rewrite Hx. now apply IH.
Qed.

Lemma take_while_app (p : char -> bool) (a b : str) :
  forallb p a = true -> (forall c r, b = c :: r -> p c = false) ->
  take_while p (a ++ b) = a.
Proof.
  intros Ha Hb. induction a as [|x a IH]; simpl in *.
  - destruct b as [|c r]; [reflexivity|]. simpl. now rewrite (Hb c r eq_refl).
  - apply andb_true_iff in Ha as [Hx Ha]. rewrite Hx. f_equal. now apply IH.
Qed.

Lemma drop_while_all (p : char -> bool) (a : str) :
  forallb p a = true -> drop_while p a = [].
Proof. apply drop_while_nil_iff. Qed.

Lemma key_char_not_space (c : char) : is_key_char c = true -> is_space c = false.
Proof.
  unfold is_key_char. intros Hk.
  apply orb_true_iff in Hk as [Hk | Hk]; [apply orb_true_iff in Hk as [Hk | Hk]|].
  - apply andb_true_iff in Hk as [H1 H2]. apply N.leb_le in H1, H2.
    unfold is_space. decide_comparisons. reflexivity.
  - apply andb_true_iff in Hk as [H1 H2]. apply N.leb_le in H1, H2.
    unfold is_space. decide_comparisons. reflexivity.
  - apply N.eqb_eq in Hk. subst c. reflexivity.
Qed.

Lemma space_not_key_char (c : char) : is_space c = true -> is_key_char c = false.
Proof.
  intros Hs. destruct (is_key_char c) eqn:E; [|reflexivity].
  apply key_char_not_space in E. congruence.
Qed.

Lemma head_of_app (p : char -> bool) (a b : str) :
  (forall c r, a = c :: r -> p c = false) ->
  (a = [] -> forall c r, b = c :: r -> p c = false) ->
  forall c r, a ++ b = c :: r -> p c = false.
Proof.
  intros Ha Hb c r Hc. destruct a as [|x a]; [now apply (Hb eq_refl c r)|].
  injection Hc as <- _. now apply (Ha x a).
Qed.

Lemma head_whitespace (a : str) :
  whitespace_only a = true -> forall c r, a = c :: r -> is_space c = true.
Proof.
  intros Ha c r ->. simpl in Ha. now apply andb_true_iff in Ha as [Hc _].
Qed.

(** X19: the lines [loadEnv] reads.  A name of capitals, digits and
    underscores, an equals sign and a value, with any white space before
    the name and around the equals sign, define the name; the value runs
    to the end of the line, trailing blanks included, and a line
    terminator left at the end of the line is not part of it.  A line
    whose first character after the white space is a hash defines
    nothing.  A value between two double quotes or two single quotes is
    read without them. *)
Theorem env_line_grammar (pad1 key pad2 pad3 val tail : str) :
  whitespace_only pad1 = true ->
  key <> [] -> forallb is_key_char key = true ->
  whitespace_only pad2 = true ->
  whitespace_only pad3 = true ->
  forallb (fun x => negb (is_line_terminator x)) val = true ->
  (forall c r, val = c :: r -> is_space c = false) ->
  whitespace_only tail = true ->
  (forall c r, tail = c :: r -> is_line_terminator c = true) ->
  match_env_line (pad1 ++ key ++ pad2 ++ 61%N :: pad3 ++ val ++ tail)
  = Some (key, val) /\
  (forall rest, match_env_line (pad1 ++ 35%N :: rest) = None) /\
  (forall v, unquote (34%N :: v ++ [34%N]) = strip_quote 39%N v) /\
  (forall v, unquote (39%N :: v ++ [39%N]) = v).
Proof.
  intros Hp1 Hne Hkey Hp2 Hp3 Hval Hv0 Htail Ht0.
  split; [|split; [|split]].
  - unfold match_env_line.
    assert (Hk0 : forall c r, key = c :: r -> is_space c = false).
    { intros c r ->. simpl in Hkey. apply andb_true_iff in Hkey as [Hc _].
      now apply key_char_not_space. }
    assert (Hafter : forall c r, pad2 ++ 61%N :: pad3 ++ val ++ tail = c :: r ->
                                 is_key_char c = false).
    { apply head_of_app.
      - intros c r Hc. apply space_not_key_char.
        exact (@head_whitespace pad2 Hp2 c r Hc).
      - intros _ c r [= <- _]. reflexivity. }
    rewrite (@drop_while_app is_space pad1) by
      (first [exact Hp1 | apply head_of_app; [exact Hk0 | congruence]]).
    rewrite take_while_app by assumption.
    destruct key as [|k0 key']; [congruence|]. cbn [is_nil].
    rewrite (@drop_while_app is_key_char (k0 :: key')) by assumption.
    rewrite (@drop_while_app is_space pad2) by
      (first [exact Hp2 | intros c r [= <- _]; reflexivity]).
    change (char_eqb 61%N 61%N) with true. cbv iota.
    destruct val as [|v0 val'].
    + cbn [app].
      assert (Hall : forallb is_space (pad3 ++ tail) = true).
      { rewrite forallb_app. unfold whitespace_only in Hp3, Htail.
        now rewrite Hp3, Htail. }
      rewrite (drop_while_all _ _ Hall). reflexivity.
    + rewrite (@drop_while_app is_space pad3) by
        (first [exact Hp3 | apply head_of_app; [exact Hv0 | congruence]]).
      assert (Hstop : forall c r, tail = c :: r ->
                negb (is_line_terminator c) = false)
        by (intros c r Hc; now rewrite (Ht0 c r Hc)).
      rewrite take_while_app by assumption.
      rewrite (@drop_while_app (fun x => negb (is_line_terminator x)))
        by assumption.
      unfold whitespace_only in Htail. now rewrite Htail.
  - intros rest. unfold match_env_line.
    rewrite (@drop_while_app is_space pad1) by
      (first [exact Hp1 | intros c r [= <- _]; reflexivity]).
    reflexivity.
  - intros v. unfold unquote. f_equal. unfold strip_quote.
    change (char_eqb 34%N 34%N) with true. cbv iota.
    rewrite rev_app_distr. cbn [rev app].
    change (char_eqb 34%N 34%N) with true. cbv iota. apply rev_involutive.
  - intros v. unfold unquote.
    assert (H34 : strip_quote 34%N (39%N :: v ++ [39%N]) = 39%N :: v ++ [39%N]).
    { unfold strip_quote. change (char_eqb 39%N 34%N) with false. cbv iota.
      change (39%N :: v ++ [39%N]) with ((39%N :: v) ++ [39%N]).
      rewrite rev_app_distr. cbn [rev app].
      change (char_eqb 39%N 34%N) with false. reflexivity. }
    rewrite H34. unfold strip_quote.
    change (char_eqb 39%N 39%N) with true. cbv iota.
    rewrite rev_app_distr. cbn [rev app].
    change (char_eqb 39%N 39%N) with true. cbv iota. apply rev_involutive.
Qed.

Lemma env_line_grammar_witness :
  match_env_line (js "  NOTION_PAGE_ID = abc def ") = Some (js "NOTION_PAGE_ID", js "abc def ").
Proof.
  refine (proj1 (@env_line_grammar (js "  ") (js "NOTION_PAGE_ID") (js " ")
                   (js " ") (js "abc def ") []
                   eq_refl _ eq_refl eq_refl eq_refl eq_refl _ eq_refl _)).
  - discriminate.
  - intros c r [= <- _]. reflexivity.
  - intros c r [=].
Defined.

(* ================================================================== *)
(** * The two renderings of the date                                   *)
(* ================================================================== *)

Lemma split_on_plain (sep : char) (a : str) :
  ~ In sep a -> split_on sep a = [a].
Proof.
  induction a as [|c a IH]; intros Hn; [reflexivity|].
  cbn [split_on].
  assert (Hc : char_eqb c sep = false)
    by (apply char_eqb_neq; intros ->; apply Hn; now left).
  rewrite Hc, IH; [reflexivity|]. intros Hin. apply Hn. now right.
Qed.

Lemma split_on_app (sep : char) (a b : str) :
  ~ In sep a -> split_on sep (a ++ sep :: b) = a :: split_on sep b.
Proof.
  induction a as [|c a IH]; intros Hn.
  - cbn [app split_on]. unfold char_eqb. now rewrite N.eqb_refl.
  - cbn [app split_on].
    assert (Hc : char_eqb c sep = false)
      by (apply char_eqb_neq; intros ->; apply Hn; now left).
    rewrite Hc, IH; [reflexivity|]. intros Hin. apply Hn. now right.
Qed.

Lemma digits_no_hyphen (a : str) : forallb is_digit a = true -> ~ In 45%N a.
Proof.
  intros Ha Hin. apply (proj1 (forallb_forall _ _) Ha) in Hin. discriminate.
Qed.

(** X20: [ddmmyyyyFromISO] turns year, month and day joined by hyphens
    into day, month and year joined by slashes, when none of the three
    holds a hyphen; on a text without hyphen, month and day come out as
    [undefined].  When the year has four digits and month and day two, a
    line of four hashes, a blank and that date is a date header, of that
    date: the one the parser compares with the target. *)
Theorem ddmmyyyyFromISO_well_formed (y m d : str) :
  ~ In 45%N y -> ~ In 45%N m -> ~ In 45%N d ->
  ddmmyyyyFromISO (y ++ js "-" ++ m ++ js "-" ++ d)
  = d ++ js "/" ++ m ++ js "/" ++ y /\
  ddmmyyyyFromISO y = js "undefined/undefined/" ++ y /\
  (forallb is_digit y = true -> length y = 4 ->
   forallb is_digit m = true -> length m = 2 ->
   forallb is_digit d = true -> length d = 2 ->
   match_date_header (Some (js "#### " ++ d ++ js "/" ++ m ++ js "/" ++ y))
   = Some (d ++ js "/" ++ m ++ js "/" ++ y)).
Proof.
  intros Hy Hm Hd. split; [|split].
  - unfold ddmmyyyyFromISO.
    change (y ++ js "-" ++ m ++ js "-" ++ d) with (y ++ 45%N :: m ++ 45%N :: d).
    rewrite split_on_app, split_on_app, split_on_plain by assumption.
    reflexivity.
  - unfold ddmmyyyyFromISO. rewrite split_on_plain by assumption. reflexivity.
  - intros Dy Ly Dm Lm Dd Ld.
    destruct y as [|y1 [|y2 [|y3 [|y4 [|? ?]]]]]; try discriminate.
    destruct m as [|m1 [|m2 [|? ?]]]; try discriminate.
    destruct d as [|d1 [|d2 [|? ?]]]; try discriminate.
    cbn [forallb] in Dy, Dm, Dd.
    repeat match goal with
           | H : _ && _ = true |- _ => apply andb_true_iff in H as [? H]
           end.
    unfold match_date_header.
    assert (Hd1 : is_space d1 = false).
    { unfold is_digit in *.
      repeat match goal with
             | H : _ && _ = true |- _ => apply andb_true_iff in H as [? ?]
             end.
      match goal with
      | H1 : (48 <=? d1)%N = true, H2 : (d1 <=? 57)%N = true |- _ =>
          apply N.leb_le in H1, H2
      end.
      unfold is_space. decide_comparisons. reflexivity. }
    assert (Hmatch : matches_whole re_date_header
                       (js "#### " ++ [d1; d2] ++ js "/" ++ [m1; m2] ++ js "/"
                        ++ [y1; y2; y3; y4]) = true).
    { cbn -[is_digit is_space].
      change (is_space 32%N) with true. cbn -[is_digit is_space].
      rewrite Hd1. cbn -[is_digit is_space].
      repeat match goal with
             | H : is_digit ?c = true |- context [is_digit ?c] =>
                 rewrite H; cbn -[is_digit is_space]
             end.
      reflexivity. }
    rewrite Hmatch. cbn [js map String.list_ascii_of_string app skipn drop_while].
    change (is_space (N_of_ascii " ")) with true. cbv iota.
    cbn [drop_while]. rewrite Hd1. reflexivity.
Qed.

Lemma ddmmyyyyFromISO_well_formed_witness :
  ddmmyyyyFromISO (js "2026-02-01") = js "01/02/2026".
Proof.
  refine (proj1 (@ddmmyyyyFromISO_well_formed (js "2026") (js "02") (js "01") _ _ _));
    vm_compute; intuition discriminate.
Defined.

Lemma main_missing_token_inv {W : Type} `{Notion W} (e : env) (w : W)
    (log : list request) (st : W * list request) :
  main e (w, log) = (Throw MissingToken, st) -> falsy (NOTION_TOKEN e) = true.
Proof.
  unfold main. destruct (falsy (NOTION_TOKEN e)); [reflexivity|].
  intros Hrun. exfalso.
  destruct (falsy (NOTION_PAGE_ID e)); [discriminate|].
  destruct (falsy (WOD_MARKDOWN e)); [discriminate|].
  unfold bind at 1 in Hrun. unfold lift in Hrun.
  destruct (@parse_loop_ok (split_lines (show (WOD_MARKDOWN e)))
              (ddmmyyyyFromISO (today e))
              (S (length (split_lines (show (WOD_MARKDOWN e))))) 0 [])
    as [entries Hp]; [lia|].
  unfold parseWodPage, parse_lines in Hrun. rewrite Hp in Hrun.
  destruct (is_nil entries); [discriminate|].
  unfold bind at 1 in Hrun.
  unfold getChildDatabaseId, bind at 1 in Hrun. rewrite notionReq_run in Hrun.
  destruct (fst (serve (GetBlockChildren (show (NOTION_PAGE_ID e)) 100 None) w))
    as [data | status]; cbn [outcome] in Hrun; [|discriminate].
  destruct (results data) as [bs|]; [|discriminate].
  destruct (find (fun b => str_eqb (block_type b) (js "child_database")) bs)
    as [db|]; [|discriminate].
  unfold ret at 1 in Hrun.
  unfold bind at 1 in Hrun. rewrite queryExistingForDate_run in Hrun.
  destruct (fst (serve (QueryDatabase (block_id db) 100 (today e) None) _))
    as [res | status]; cbn [outcome rmap] in Hrun; [|discriminate].
  unfold bind in Hrun.
  match type of Hrun with
  | context [sync_loop ?d ?i ?k ?es 0 0 ?s0] =>
      destruct (sync_loop d i k es 0 0 s0) as [rl [w2 log2]] eqn:Hloop
  end.
  apply sync_loop_any in Hloop as (k & _ & _ & Hr).
  destruct Hr as [[[c sk] [-> _]] | [_ [status ->]]]; discriminate.
Qed.

(** X21: the run reports the token as missing, before any request, exactly
    when neither the process environment nor any line of the file leaves
    [NOTION_TOKEN] a value: the variable is unset or empty, and of every
    line that defines it the environment stores nothing, its value,
    quotes taken off, being empty or starting with U+0000. *)
Theorem missing_token_iff {W : Type} `{Notion W} (raw : str) (p : process_env)
    (isoDate : str) (w : W) (log : list request) :
  main (read_env (loadEnv (Some raw) p) isoDate) (w, log)
  = (Throw MissingToken, (w, log))
  <->
  falsy (p (js "NOTION_TOKEN")) = true /\
  forall l v, In l (split_lines raw) ->
              match_env_line l = Some (js "NOTION_TOKEN", v) ->
              env_value (unquote v) = [] /\
              (unquote v = [] \/ exists r, unquote v = 0%N :: r).
Proof.
  assert (Hiff : (forall l v, In l (split_lines raw) ->
                    match_env_line l = Some (js "NOTION_TOKEN", v) ->
                    env_value (unquote v) = [] /\
                    (unquote v = [] \/ exists r, unquote v = 0%N :: r))
                 <->
                 (forall l v, In l (split_lines raw) ->
                    match_env_line l = Some (js "NOTION_TOKEN", v) ->
                    env_value (unquote v) = [])).
  { split; intros Hall l v Hin Hm.
    - apply (Hall l v Hin Hm).
    - pose proof (Hall l v Hin Hm) as Hv. split; [exact Hv|].
      now apply env_value_nil_iff. }
  rewrite Hiff, <- load_lines_falsy. split.
  - intros Hrun. apply main_missing_token_inv in Hrun. exact Hrun.
  - intros Hf. unfold main, read_env, loadEnv. cbn [NOTION_TOKEN].
    now rewrite Hf.
Qed.

Lemma missing_token_iff_witness :
  main (read_env (loadEnv (Some (js "NOTION_PAGE_ID=abc")) (fun _ => None))
          (js "2026-02-01")) (fresh_store, [])
  = (Throw MissingToken, (fresh_store, [])).
Proof.
  apply (proj2 (@missing_token_iff store store_notion (js "NOTION_PAGE_ID=abc")
                  (fun _ => None) (js "2026-02-01") fresh_store [])).
  split; [reflexivity|].
  intros l v [<- | []]. vm_compute. discriminate.
Defined.
